(** * IdeaSpark: rate limiting and anonymous device identity

    A shallow embedding of the server gate (identity classification, the
    fixed-window limiter on Upstash, the request handler), of the client
    device-identity resolver ([src/deviceId.ts]) and of the client usage
    guard, followed by the properties of the specification that concern
    them.

    Conventions of the embedding.
    - A JavaScript string is the list of its UTF-16 code units ([list N]).
    - A JavaScript number that the program obtains from the store or from
      local storage is a [number]: an integer, [NaN] or an infinity.  Redis
      [INCR] and [TTL] replies and [Date.now()] stamps are integers; on
      integers of that size [Math.ceil (x / k)] is the exact ceiling.
    - [undefined] is [None].
    - Calls to the outside (the store, the generation service) take their
      replies from a world record; awaited promises are run in sequence, a
      rejection is a thrown exception. *)

From Stdlib Require Import ZArith NArith Ascii String DecimalString.
From stdpp Require Import base option list sorting gmap.

Open Scope Z_scope.

(** ** JavaScript strings *)

Module Js.

Abbreviation jsstring := (list N).

(** A literal of the source, as code units. *)
Definition str (s : string) : jsstring :=
  map N_of_ascii (list_ascii_of_string s).
Arguments str : simpl never.

Definition is_digit (c : N) : bool := ((48 <=? c) && (c <=? 57))%N.
Definition is_lower_hex (c : N) : bool := ((97 <=? c) && (c <=? 102))%N.
Definition is_upper_hex (c : N) : bool := ((65 <=? c) && (c <=? 70))%N.

(** [[0-9a-f]] under the [i] flag (no [u] flag: a code unit above 127 never
    folds to an ASCII letter). *)
Definition is_hex (c : N) : bool := is_digit c || is_lower_hex c || is_upper_hex c.

(** [WhiteSpace] and [LineTerminator] of ECMAScript, which [trim] removes. *)
Definition is_whitespace (c : N) : bool :=
  (((9 <=? c) && (c <=? 13)) || (c =? 32) || (c =? 160) || (c =? 5760)
   || ((8192 <=? c) && (c <=? 8202)) || (c =? 8232) || (c =? 8233)
   || (c =? 8239) || (c =? 8287) || (c =? 12288) || (c =? 65279))%N.

Fixpoint trimStart (s : jsstring) : jsstring :=
  match s with
  | c :: s' => if is_whitespace c then trimStart s' else s
  | [] => []
  end.

Definition trimEnd (s : jsstring) : jsstring := rev (trimStart (rev s)).

Definition trim (s : jsstring) : jsstring := trimEnd (trimStart s).

(** [toLowerCase] on the Basic Latin block; other code units are left as they
    are.  The program lowers only strings that passed one of its two patterns,
    which hold ASCII code units only (see [regex_test_ascii]). *)
Definition lower (c : N) : N :=
  if ((65 <=? c) && (c <=? 90))%N then (c + 32)%N else c.

Definition toLowerCase (s : jsstring) : jsstring := map lower s.

(** [s.split(sep)] for a one-unit separator. *)
Fixpoint split (sep : N) (s : jsstring) : list jsstring :=
  match s with
  | [] => [[]]
  | c :: s' =>
      if (c =? sep)%N then [] :: split sep s'
      else match split sep s' with
           | p :: ps => (c :: p) :: ps
           | [] => [[c]]
           end
  end.

(** [parts.join(sep)]. *)
Fixpoint join (sep : jsstring) (parts : list jsstring) : jsstring :=
  match parts with
  | [] => []
  | [p] => p
  | p :: ps => p ++ sep ++ join sep ps
  end.

(** [s.slice(from)] and [s.slice(from, to)] for non-negative indices. *)
Definition slice_from (from : nat) (s : jsstring) : jsstring := drop from s.
Definition slice (from to : nat) (s : jsstring) : jsstring :=
  take (to - from) (drop from s).

(** A string is truthy when it is not empty. *)
Definition truthy (s : jsstring) : bool :=
  match s with [] => false | _ => true end.

(** Decimal rendering of an integer, as a template literal prints it. *)
Definition of_Z (z : Z) : jsstring := str (NilZero.string_of_int (Z.to_int z)).

(** *** The two anchored patterns of the program

    Both patterns are a sequence of fixed-width runs of one character class
    between [^] and [$]; [$] without the [m] flag matches at the very end
    only. *)

Inductive atom := Hex | Dash.

Definition atom_matches (a : atom) (c : N) : bool :=
  match a with
  | Hex => is_hex c
  | Dash => (c =? 45)%N
  end.

Definition regex := list (atom * nat).

Definition expand (r : regex) : list atom :=
  flat_map (fun '(a, n) => repeat a n) r.

Fixpoint match_atoms (p : list atom) (s : jsstring) : bool :=
  match p, s with
  | [], [] => true
  | a :: p', c :: s' => atom_matches a c && match_atoms p' s'
  | _, _ => false
  end.

Definition test (r : regex) (s : jsstring) : bool := match_atoms (expand r) s.

(** *** Numbers and values of type [unknown] *)

Inductive number := Fin (z : Z) | NaN | PInf | NInf.

(** [Number.isFinite(x)], [x === k], [x < k], [x >= k] and [x <= k] for a
    possibly undefined [x] and an integer [k]; a comparison with [undefined]
    or [NaN] is false. *)
Definition Number_isFinite (x : option number) : bool :=
  match x with Some (Fin _) => true | _ => false end.

Definition num_eq (x : option number) (k : Z) : bool :=
  match x with Some (Fin a) => a =? k | _ => false end.

Definition num_lt (x : option number) (k : Z) : bool :=
  match x with Some (Fin a) => a <? k | Some NInf => true | _ => false end.

Definition num_ge (x : option number) (k : Z) : bool :=
  match x with Some (Fin a) => k <=? a | Some PInf => true | _ => false end.

Definition num_le (x : option number) (k : Z) : bool :=
  match x with Some (Fin a) => a <=? k | Some NInf => true | _ => false end.

(** The least integer not below [a / k], for [k > 0]. *)
Definition ceil_div (a k : Z) : Z := - ((- a) / k).

(** [Math.ceil(x / k)] for [k > 0]. *)
Definition Math_ceil_div (x : number) (k : Z) : number :=
  match x with Fin a => Fin (ceil_div a k) | other => other end.

(** [Math.max(0, x)]. *)
Definition Math_max0 (x : number) : number :=
  match x with
  | Fin a => Fin (Z.max 0 a)
  | NaN => NaN
  | PInf => PInf
  | NInf => Fin 0
  end.

#[warnings="-register-all"]
Inductive value :=
| VUndefined
| VNull
| VBool (b : bool)
| VNumber (n : number)
| VString (s : jsstring)
| VArray (l : list value)
| VObject.

(** [a ?? b] *)
Definition nullish (a b : value) : value :=
  match a with
  | VUndefined | VNull => b
  | _ => a
  end.

(** What a [try] block or an awaited promise ends with. *)
Inductive result (A : Type) := Returned (a : A) | Thrown.
Arguments Returned {A} a.
Arguments Thrown {A}.

(** [crypto]: [randomUUID] when it is a function (what a call yields), and
    [subtle.digest('SHA-256', new TextEncoder().encode(input))] as a function
    of [input] when [subtle] is there. *)
Record Crypto := {
  randomUUID : option (result jsstring);
  subtle : option (jsstring -> result (list Byte.byte))
}.

End Js.

Import Js.

(** ** The server: the request handler and its limiter *)

Module Server.

Definition HOUR_SECONDS : Z := 60 * 60.
Definition IP_LIMIT : Z := 20.
Definition COOKIE_LIMIT : Z := 30.
Definition COMBINED_LIMIT : Z := 50.
Definition IP_KEY_PREFIX : jsstring := str "rl:ip:".
Definition COOKIE_KEY_PREFIX : jsstring := str "rl:cookie:".
Definition COMBINED_KEY_PREFIX : jsstring := str "rl:combined:".
Definition UUID_REGEX : regex :=
  [(Hex, 8); (Dash, 1); (Hex, 4); (Dash, 1); (Hex, 4); (Dash, 1); (Hex, 4);
   (Dash, 1); (Hex, 12)]%nat.
Definition HEX_64_REGEX : regex := [(Hex, 64%nat)].
Definition COOKIE_NAME : jsstring := str "ideaspark_id".

Record RateContext := {
  key : jsstring;
  limit : Z;
  ttlSeconds : Z
}.

Definition normalizeDeviceId (v : value) : option jsstring :=
  match v with
  | VString s =>
      let trimmed := trim s in
      if test HEX_64_REGEX trimmed then Some (toLowerCase trimmed)
      else if test UUID_REGEX trimmed then Some (toLowerCase trimmed)
      else None
  | _ => None
  end.

(** *** The request

    [parseBody(req)] is declared a [Record<string, unknown>]; the request
    carries the two fields the handler reads from it ([VUndefined] when the
    field is missing) next to the same two fields of [req.query].  The body
    as it arrives, [parseBody] itself and the one body for which it returns
    no record ([null]) come with [serve], after the handler. *)

Inductive HeaderValue :=
| HUndefined
| HString (s : jsstring)
| HArray (l : list jsstring).

Record VercelRequest := {
  body_category : value;
  body_deviceId : value;
  query_category : value;
  query_deviceId : value;
  headers_cookie : option jsstring;
  headers_x_forwarded_for : HeaderValue;
  headers_x_real_ip : HeaderValue;
  socket_remoteAddress : option jsstring
}.

(** *** The response and the calls to the outside *)

Inductive arg := AStr (s : jsstring) | ANum (z : Z).

Inductive call :=
| CallUpstash (body : list (list arg))   (* POST REDIS_URL/pipeline *)
| CallGemini (prompt : jsstring).        (* POST ...:generateContent *)

Inductive Json :=
| JRateLimit (remaining : number)   (* { error: 'rate_limit', remaining } *)
| JError (message : jsstring)       (* { error: message } *)
| JIdea (idea : jsstring).          (* { idea } *)

Record VercelResponse := {
  statusCode : Z;
  setCookie : option jsstring;
  json : option Json
}.

Definition fresh_response : VercelResponse :=
  {| statusCode := 200; setCookie := None; json := None |}.

(** *** The world the handler runs in *)

Inductive JsonReply :=
| JsonRejects                          (* response.json() rejects *)
| JsonNotArray
| JsonArray (entries : list number).   (* Number(entry?.result ?? entry) of each *)

Inductive HttpReply :=
| FetchRejects
| Response (ok : bool) (status : Z) (data : JsonReply).

(** The generation service: the call throws somewhere (fetch, json() or the
    extraction), or [data.candidates?.[0]?.content?.parts?.[0]?.text] is a
    string or undefined. *)
Inductive GeminiReply :=
| GeminiThrows
| GeminiText (text : option jsstring).

Record World := {
  redis_configured : bool;                      (* REDIS_URL && REDIS_TOKEN *)
  upstash : list (list arg) -> HttpReply;
  gemini : jsstring -> GeminiReply;
  crypto : option Crypto;
  Date_now : Z;
  Math_random_16 : jsstring                     (* Math.random().toString(16) *)
}.

(** *** A monad for the handler: the response under construction, the calls
    made so far, and exceptions *)

Record io := { res : VercelResponse; calls : list call }.

Definition M (A : Type) : Type := io -> result A * io.

Definition ret {A} (a : A) : M A := fun s => (Returned a, s).
Definition throw {A} : M A := fun s => (Thrown, s).
Definition bind {A B} (m : M A) (k : A -> M B) : M B :=
  fun s => match m s with
           | (Returned a, s') => k a s'
           | (Thrown, s') => (Thrown, s')
           end.
Definition try_catch {A} (m : M A) (handler : M A) : M A :=
  fun s => match m s with
           | (Returned a, s') => (Returned a, s')
           | (Thrown, s') => handler s'
           end.

Notation "'let*' x ':=' m 'in' k" := (bind m (fun x => k))
  (at level 10, x name, m at level 100, k at level 200, only parsing).
Notation "m ';;' k" := (bind m (fun _ => k))
  (at level 100, k at level 200, right associativity, only parsing).

Definition perform (c : call) : M unit :=
  fun s => (Returned tt, {| res := res s; calls := calls s ++ [c] |}).

Definition res_setHeader_SetCookie (v : jsstring) : M unit :=
  fun s => (Returned tt,
            {| res := {| statusCode := statusCode (res s);
                         setCookie := Some v;
                         json := json (res s) |};
               calls := calls s |}).

(** [res.status(code).json(body)] *)
Definition res_status_json (code : Z) (body : Json) : M unit :=
  fun s => (Returned tt,
            {| res := {| statusCode := code;
                         setCookie := setCookie (res s);
                         json := Some body |};
               calls := calls s |}).

(** *** The functions of the source *)

Definition getClientIp (req : VercelRequest) : jsstring :=
  let from_real_ip :=
    match headers_x_real_ip req with
    | HString realIp => realIp
    | HArray (first :: _) => first
    | _ =>
        match socket_remoteAddress req with
        | Some a => if truthy a then a else str "unknown"
        | None => str "unknown"
        end
    end in
  match headers_x_forwarded_for req with
  | HString xff =>
      if truthy xff then trim (hd [] (split 44 xff)) else from_real_ip
  | HArray (first :: _) => trim first
  | _ => from_real_ip
  end.

(** [acc[name] = value] on the plain object that [parseCookies] fills: an
    own property, except for the name [__proto__], whose assignment goes to
    the setter inherited from [Object.prototype], which ignores a string.
    The map holds the own properties. *)
Definition set_property (name value : jsstring) (acc : gmap (list N) (list N))
  : gmap (list N) (list N) :=
  if bool_decide (name = str "__proto__") then acc else <[name := value]> acc.

Definition parseCookies (req : VercelRequest) : gmap (list N) (list N) :=
  match headers_cookie req with
  | None => ∅
  | Some header =>
      if truthy header then
        foldl (fun acc part =>
                 match split 61 (trim part) with
                 | name :: rest =>
                     if truthy name
                     then set_property name (join (str "=") rest) acc
                     else acc
                 | [] => acc
                 end)
              ∅ (split 59 header)
      else ∅
  end.

Definition createCookie (v : jsstring) : jsstring :=
  COOKIE_NAME ++ str "=" ++ v
  ++ str "; Path=/; Max-Age=31536000; HttpOnly; Secure; SameSite=Lax".

Definition fetch_upstash (w : World) (body : list (list arg))
  : M (bool * Z * JsonReply) :=
  perform (CallUpstash body);;
  match upstash w body with
  | FetchRejects => throw
  | Response ok status data => ret (ok, status, data)
  end.

Definition runUpstash (w : World) (commands : list arg) : M (option number) :=
  if negb (redis_configured w) then throw else
  let* response := fetch_upstash w [commands] in
  let '(ok, _, reply) := response in
  if negb ok then throw else
  match reply with
  | JsonRejects => throw
  | JsonNotArray => throw
  | JsonArray [] => throw
  | JsonArray (result :: _) => ret (Some result)
  end.

Definition runUpstashPipeline (w : World) (commands : list (list arg))
  : M (list number) :=
  if negb (redis_configured w) then throw else
  let* response := fetch_upstash w commands in
  let '(ok, _, reply) := response in
  if negb ok then throw else
  match reply with
  | JsonRejects => throw
  | JsonNotArray => throw
  | JsonArray entries => ret entries
  end.

Record RateResult := { allowed : bool; remainingMinutes : number }.

Definition enforceRateLimit (w : World) (context : RateContext) : M RateResult :=
  let* reply := runUpstashPipeline w
                  [[AStr (str "INCR"); AStr (key context)];
                   [AStr (str "TTL"); AStr (key context)]] in
  let count := reply !! 0%nat in
  let ttl := reply !! 1%nat in
  if negb (Number_isFinite count) then throw else
  let ttlSeconds0 :=
    if Number_isFinite ttl && num_ge ttl 0 then default NaN ttl
    else Fin (ttlSeconds context) in
  (* Ensure fixed window expiry is set *)
  let* ttlSeconds1 :=
    if num_eq count 1 || num_lt ttl 0 then
      runUpstash w [AStr (str "EXPIRE"); AStr (key context);
                    ANum (ttlSeconds context)];;
      ret (Fin (ttlSeconds context))
    else ret ttlSeconds0 in
  let allowed := num_le count (limit context) in
  let remainingMinutes := Math_max0 (Math_ceil_div ttlSeconds1 60) in
  ret {| allowed := allowed; remainingMinutes := remainingMinutes |}.

Definition pickFirst (v : value) : value :=
  match v with
  | VArray l => hd VUndefined l
  | _ => v
  end.

Definition DEFAULT_CATEGORY : jsstring := [12521; 12531; 12480; 12512]%N.

Definition PROMPT_PREFIX : jsstring :=
  [20170; 12377; 12368; 12420; 12387; 12390; 12415; 12383; 12367; 12394;
   12427; 23567; 12373; 12394; 12450; 12452; 12487; 12450; 12434; 12289;
   49; 25991; 12391; 20855; 20307; 30340; 12395; 49; 12388; 12384; 12369;
   20986; 12375; 12390; 12367; 12384; 12373; 12356; 12290; 12459; 12486;
   12468; 12522; 58; 32]%N.

Definition category_of (req : VercelRequest) : jsstring :=
  let rawCategory :=
    pickFirst (nullish (nullish (body_category req) (query_category req))
                       (VString DEFAULT_CATEGORY)) in
  match rawCategory with
  | VString s => if truthy (trim s) then trim s else DEFAULT_CATEGORY
  | _ => DEFAULT_CATEGORY
  end.

Definition deviceId_of (req : VercelRequest) : value :=
  pickFirst (nullish (body_deviceId req) (query_deviceId req)).

(** The expression that makes a cookie identifier (lines 176-178). *)
Definition new_cookie_id (w : World) : result jsstring :=
  let fallback :=
    Returned (of_Z (Date_now w) ++ str "-" ++ slice_from 2 (Math_random_16 w)) in
  match crypto w with
  | Some c =>
      match randomUUID c with
      | Some r => r
      | None => fallback
      end
  | None => fallback
  end.

(** Lines 170-184: [(cookieDeviceId, setCookieHeader)] after the first
    [if]. *)
Definition issue_cookie (req : VercelRequest) (w : World)
  : option jsstring * option jsstring :=
  let cookieDeviceId := parseCookies req !! COOKIE_NAME in
  match cookieDeviceId with
  | Some (_ :: _) => (cookieDeviceId, None)
  | _ =>
      match new_cookie_id w with
      | Returned uuid => (Some uuid, Some (createCookie uuid))
      | Thrown => (cookieDeviceId, None)
      end
  end.

(** Lines 187-208: the rate context. *)
Definition rate_context (req : VercelRequest) (cookieDeviceId : option jsstring)
  : RateContext :=
  match normalizeDeviceId (deviceId_of req) with
  | Some (c :: id) =>
      {| key := COMBINED_KEY_PREFIX ++ c :: id;
         limit := COMBINED_LIMIT;
         ttlSeconds := HOUR_SECONDS |}
  | _ =>
      match cookieDeviceId with
      | Some (c :: id) =>
          {| key := COOKIE_KEY_PREFIX ++ c :: id;
             limit := COOKIE_LIMIT;
             ttlSeconds := HOUR_SECONDS |}
      | _ =>
          {| key := IP_KEY_PREFIX ++ getClientIp req;
             limit := IP_LIMIT;
             ttlSeconds := HOUR_SECONDS |}
      end
  end.

Definition INTERNAL_SERVER_ERROR : Json := JError (str "Internal Server Error.").

(** The first [try] of the handler; the result tells whether the handler
    goes on to the generation call ([false]: it has returned). *)
Definition gate (req : VercelRequest) (w : World) : M bool :=
  let '(cookieDeviceId, setCookieHeader) := issue_cookie req w in
  try_catch
    (let context := rate_context req cookieDeviceId in
     match setCookieHeader with
     | Some h => res_setHeader_SetCookie h
     | None => ret tt
     end;;
     let* rate := enforceRateLimit w context in
     if negb (allowed rate) then
       res_status_json 429 (JRateLimit (remainingMinutes rate));;
       ret false
     else ret true)
    (res_status_json 500 INTERNAL_SERVER_ERROR;; ret false).

(** The second [try]: the protected generation call. *)
Definition generate (req : VercelRequest) (w : World) : M unit :=
  let prompt := PROMPT_PREFIX ++ category_of req in
  try_catch
    (perform (CallGemini prompt);;
     match gemini w prompt with
     | GeminiThrows => throw
     | GeminiText text =>
         match trim <$> text with
         | Some (c :: idea) => res_status_json 200 (JIdea (c :: idea))
         | _ => res_status_json 500 (JError (str "Failed to extract idea."))
         end
     end)
    (res_status_json 500 INTERNAL_SERVER_ERROR).

Definition handler (req : VercelRequest) (w : World) : M unit :=
  let* proceed := gate req w in
  if proceed then generate req w else ret tt.

(** A run of the handler on a fresh response. *)
Definition run (req : VercelRequest) (w : World) : io :=
  snd (handler req w {| res := fresh_response; calls := [] |}).

(** *** The body as it arrives

    What [JSON.parse] makes of the text of a body: [null], or another value,
    given by what its properties [category] and [deviceId] read as
    ([VUndefined] for a property it has not, as with every property of a
    number, a string, a boolean or an array). *)
Inductive Parsed :=
| PNull
| PFields (category deviceId : value).

(** [req.body]: falsy (missing, [null], the empty string); a [Buffer] or a
    string, with what [JSON.parse] does with its text; an object, with what
    its two properties read as; or something else (a number, [true]). *)
Inductive RequestBody :=
| BodyFalsy
| BodyBuffer (parsed : result Parsed)
| BodyString (parsed : result Parsed)
| BodyObject (category deviceId : value)
| BodyOther.

Definition EMPTY_RECORD : Parsed := PFields VUndefined VUndefined.

Definition parseBody (body : RequestBody) : Parsed :=
  match body with
  | BodyFalsy => EMPTY_RECORD
  | BodyBuffer (Returned parsed) => parsed
  | BodyBuffer Thrown => EMPTY_RECORD
  | BodyString (Returned parsed) => parsed
  | BodyString Thrown => EMPTY_RECORD
  | BodyObject category deviceId => PFields category deviceId
  | BodyOther => EMPTY_RECORD
  end.

Definition with_body (req : VercelRequest) (category deviceId : value)
  : VercelRequest :=
  {| body_category := category;
     body_deviceId := deviceId;
     query_category := query_category req;
     query_deviceId := query_deviceId req;
     headers_cookie := headers_cookie req;
     headers_x_forwarded_for := headers_x_forwarded_for req;
     headers_x_real_ip := headers_x_real_ip req;
     socket_remoteAddress := socket_remoteAddress req |}.

(** The exported function on a request with the given body ([req] gives the
    query, the headers and the socket).  When [parseBody] returns [null],
    reading [body.category] throws a [TypeError] before the first [try]:
    nothing has been set on the response, nothing is called, and the promise
    rejects. *)
Definition serve (body : RequestBody) (req : VercelRequest) (w : World) : M unit :=
  match parseBody body with
  | PNull => throw
  | PFields category deviceId => handler (with_body req category deviceId) w
  end.

End Server.

(** ** The client: [src/deviceId.ts] *)

Module DeviceId.

Definition STORAGE_KEY : jsstring := str "ideaspark_device_id".

Definition UUID_REGEX : regex :=
  [(Hex, 8); (Dash, 1); (Hex, 4); (Dash, 1); (Hex, 4); (Dash, 1); (Hex, 4);
   (Dash, 1); (Hex, 12)]%nat.

Definition isValidUuid (v : jsstring) : bool := test UUID_REGEX v.

(** [window.localStorage]: its items, and whether [getItem] or [setItem]
    throws (storage disabled, quota exceeded). *)
Record Storage := {
  items : gmap (list N) (list N);
  getItem_throws : bool;
  setItem_throws : bool
}.

Definition getItem (st : Storage) (k : jsstring) : result (option jsstring) :=
  if getItem_throws st then Thrown else Returned (items st !! k).

Definition setItem (st : Storage) (k v : jsstring) : result Storage :=
  if setItem_throws st then Thrown
  else Returned {| items := <[k := v]> (items st);
                   getItem_throws := getItem_throws st;
                   setItem_throws := setItem_throws st |}.

(** What loading and querying FingerprintJS ends with. *)
Inductive Fingerprint :=
| LoadRejects
| GetRejects
| Visitor (visitorId : jsstring).

(** The browser (or the server-side renderer, which has no [window]). *)
Record World := {
  window : option (option Storage);   (* window, then window.localStorage *)
  crypto : option Crypto;
  Date_now : Z;
  Math_random_36 : jsstring;          (* Math.random().toString(36) *)
  fingerprint : Fingerprint
}.

Definition with_storage (w : World) (st : Storage) : World :=
  {| window := Some (Some st);
     crypto := crypto w;
     Date_now := Date_now w;
     Math_random_36 := Math_random_36 w;
     fingerprint := fingerprint w |}.

(** The expression that makes a device identifier (lines 16-18). *)
Definition fresh_id (w : World) : result jsstring :=
  let fallback :=
    Returned (str "device-" ++ of_Z (Date_now w) ++ str "-"
              ++ slice 2 10 (Math_random_36 w)) in
  match crypto w with
  | Some c =>
      match randomUUID c with
      | Some r => r
      | None => fallback
      end
  | None => fallback
  end.

(** [getDeviceId()]: the identifier and the world after the call. *)
Definition getDeviceId (w : World) : jsstring * World :=
  match window w with
  | Some (Some storage) =>
      match getItem storage STORAGE_KEY with
      | Thrown => ([], w)
      | Returned existing =>
          let valid :=
            match existing with
            | Some e => truthy e && isValidUuid e
            | None => false
            end in
          if valid then (default [] existing, w) else
          match fresh_id w with
          | Thrown => ([], w)
          | Returned fresh =>
              match setItem storage STORAGE_KEY fresh with
              | Thrown => ([], w)
              | Returned storage' => (fresh, with_storage w storage')
              end
          end
      end
  | _ => ([], w)
  end.

(** [fingerprintPromise]: [null] without a window; otherwise a promise that
    always resolves, to the visitor id or to the empty string. *)
Definition fingerprintPromise (w : World) : option jsstring :=
  match window w with
  | Some _ =>
      Some match fingerprint w with
           | Visitor visitorId => visitorId
           | LoadRejects | GetRejects => []
           end
  | None => None
  end.

Definition hex_digit (d : N) : N := (if d <? 10 then 48 + d else 87 + d)%N.

(** [b.toString(16)] for a byte. *)
Definition toString16 (b : N) : jsstring :=
  (if b <? 16 then [hex_digit b] else [hex_digit (b / 16); hex_digit (b mod 16)])%N.

(** [s.padStart(2, '0')] *)
Definition padStart2 (s : jsstring) : jsstring :=
  match s with
  | [] => [48; 48]%N
  | [c] => [48%N; c]
  | _ => s
  end.

Definition sha256 (w : World) (input : jsstring) : result jsstring :=
  match crypto w with
  | Some c =>
      match subtle c with
      | Some digest =>
          match digest input with
          | Returned bytes =>
              Returned (join [] (map (fun b => padStart2 (toString16 (Byte.to_N b))) bytes))
          | Thrown => Thrown
          end
      | None => Returned []
      end
  | None => Returned []
  end.

(** [getUniqueDeviceId()]: what the promise settles with ([Thrown]: it
    rejects) and the world after the call. *)
Definition getUniqueDeviceId (w : World) : result jsstring * World :=
  let '(baseId, w') := getDeviceId w in
  if negb (truthy baseId) then (Returned [], w') else
  let attempt :=
    let fingerprintId := default [] (fingerprintPromise w') in
    let combined := baseId ++ str "|" ++ fingerprintId in
    match sha256 w' combined with
    | Returned hash => Returned (if truthy hash then hash else baseId)
    | Thrown => Thrown
    end in
  match attempt with
  | Returned r => (Returned r, w')
  | Thrown => (Returned baseId, w')
  end.

End DeviceId.

(** ** The client usage guard *)

Module Guard.

Definition LIMIT : nat := 20.
Definition WINDOW_MS : Z := 60 * 60 * 1000.

(** What reading the guard's item of local storage gives. *)
Inductive Stored :=
| NoStorage                          (* getStorage() is null *)
| GetItemThrows
| NoItem                             (* getItem gives null or '' *)
| ParseThrows                        (* JSON.parse throws *)
| NotArray
| StoredArray (values : list number) (* Number(value) of each element *).

(** [Number.isFinite(timestamp) && timestamp >= cutoff]; what passes is an
    integer. *)
Definition in_window (cutoff : Z) (timestamp : number) : option Z :=
  match timestamp with
  | Fin t => if cutoff <=? t then Some t else None
  | _ => None
  end.

Definition loadTimestamps (st : Stored) (now : Z) : list Z :=
  match st with
  | StoredArray parsed =>
      let cutoff := now - WINDOW_MS in
      merge_sort Z.le (omap (in_window cutoff) parsed)
  | _ => []
  end.

Definition minutesUntilReset (timestamps : list Z) (now : Z) : Z :=
  if (length timestamps <? LIMIT)%nat then 0 else
  let oldest := hd 0 timestamps in
  let remainingMs := WINDOW_MS - (now - oldest) in
  if remainingMs <=? 0 then 0 else ceil_div remainingMs (60 * 1000).

(** [canGenerateIdea()] when [Date.now()] is [now]. *)
Definition canGenerateIdea (st : Stored) (now : Z) : bool * Z :=
  let timestamps := loadTimestamps st now in
  let allowed := (length timestamps <? LIMIT)%nat in
  let remaining := if allowed then 0 else minutesUntilReset timestamps now in
  (allowed, remaining).

(** [saveTimestamps(timestamps)]: the stored item afterwards.  Nothing is
    written without a storage; [setItem] may throw, and nothing catches it.
    What [JSON.stringify] writes for integer stamps reads back as the same
    numbers.  A storage whose [getItem] throws keeps doing so. *)
Definition saveTimestamps (setItem_throws : bool) (st : Stored)
    (timestamps : list Z) : result Stored :=
  match st with
  | NoStorage => Returned NoStorage
  | GetItemThrows => if setItem_throws then Thrown else Returned GetItemThrows
  | _ =>
      if setItem_throws then Thrown
      else Returned (StoredArray (map Fin timestamps))
  end.

(** [recordGenerateIdea()] when [Date.now()] is [now]. *)
Definition recordGenerateIdea (setItem_throws : bool) (st : Stored) (now : Z)
  : result Stored :=
  let timestamps := loadTimestamps st now in
  let updated := merge_sort Z.le (timestamps ++ [now]) in
  saveTimestamps setItem_throws st updated.

End Guard.

(** ** The idea history: [src/history.ts] *)

Module History.

Record IdeaHistoryItem := {
  text : jsstring;
  category : jsstring;
  timestamp : Z;
  pinned : bool
}.

Definition UNCATEGORIZED : jsstring := [26410; 20998; 39006]%N.

(** What reading the history item of local storage gives.  The elements of
    a stored array are given as the [.map] of [loadIdeaHistory] normalizes
    them, with the integer time stamps that the program writes. *)
Inductive Stored :=
| NoStorage                          (* getStorage() is null *)
| GetItemThrows
| NoItem                             (* getItem gives null or '' *)
| ParseThrows                        (* JSON.parse throws *)
| NotArray
| ElementThrows                      (* an element is null: item.text throws *)
| StoredItems (normalized : list IdeaHistoryItem).

(** The comparator of [sortHistory]. *)
Definition compare_items (a b : IdeaHistoryItem) : Z :=
  if Bool.eqb (pinned a) (pinned b) then timestamp b - timestamp a
  else if pinned a then -1 else 1.

(** [[...items].sort(compare)].  [Array.prototype.sort] is stable, and this
    comparator is a consistent ordering, so the result is the one ordered
    permutation that keeps equal items in their order; inserting the items
    from the right, each before the first item it does not come after,
    computes it (see [sortHistory_stable_order]). *)
Fixpoint insert_item (a : IdeaHistoryItem) (l : list IdeaHistoryItem)
  : list IdeaHistoryItem :=
  match l with
  | [] => [a]
  | b :: l' => if compare_items a b <=? 0 then a :: l else b :: insert_item a l'
  end.

Definition sortHistory (items : list IdeaHistoryItem) : list IdeaHistoryItem :=
  foldr insert_item [] items.

Definition loadIdeaHistory (st : Stored) : list IdeaHistoryItem :=
  match st with
  | StoredItems normalized =>
      sortHistory (List.filter (fun item => truthy (text item)) normalized)
  | _ => []
  end.

(** [storage.setItem(STORAGE_KEY, JSON.stringify(sorted))]: the stored item
    afterwards.  [setItem] may throw, and nothing catches it.  What
    [JSON.stringify] writes for these items normalizes to the same items.  A
    storage whose [getItem] throws keeps doing so. *)
Definition write (setItem_throws : bool) (st : Stored)
    (sorted : list IdeaHistoryItem) : result Stored :=
  if setItem_throws then Thrown
  else match st with
       | GetItemThrows => Returned GetItemThrows
       | _ => Returned (StoredItems sorted)
       end.

(** [saveIdeaToHistory(text, category)] when [Date.now()] is [now]: the
    list returned and the stored item afterwards. *)
Definition saveIdeaToHistory (setItem_throws : bool) (st : Stored)
    (text0 category0 : jsstring) (now : Z)
  : result (list IdeaHistoryItem * Stored) :=
  let trimmedText := trim text0 in
  if negb (truthy trimmedText) then Returned (loadIdeaHistory st, st) else
  match st with
  | NoStorage => Returned ([], st)
  | _ =>
      let history := loadIdeaHistory st in
      let exists_ :=
        existsb (fun item => bool_decide (text item = trimmedText)) history in
      if exists_ then Returned (history, st) else
      let updatedHistory :=
        {| text := trimmedText;
           category := if truthy (trim category0) then trim category0
                       else UNCATEGORIZED;
           timestamp := now;
           pinned := false |} :: history in
      let sorted := sortHistory updatedHistory in
      match write setItem_throws st sorted with
      | Returned st' => Returned (sorted, st')
      | Thrown => Thrown
      end
  end.

(** [clearIdeaHistory()] *)
Definition clearIdeaHistory (st : Stored) : list IdeaHistoryItem * Stored :=
  match st with
  | NoStorage => ([], NoStorage)
  | GetItemThrows => ([], GetItemThrows)
  | _ => ([], NoItem)
  end.

(** [togglePin(text)] *)
Definition togglePin (setItem_throws : bool) (st : Stored) (text0 : jsstring)
  : result (list IdeaHistoryItem * Stored) :=
  match st with
  | NoStorage => Returned ([], st)
  | _ =>
      let history := loadIdeaHistory st in
      let updated :=
        map (fun item =>
               if bool_decide (text item = text0)
               then {| text := text item; category := category item;
                       timestamp := timestamp item;
                       pinned := negb (pinned item) |}
               else item)
            history in
      let sorted := sortHistory updated in
      match write setItem_throws st sorted with
      | Returned st' => Returned (sorted, st')
      | Thrown => Thrown
      end
  end.

End History.

(** * Notions used in the statements *)

Module ServerSpec.
Import Server.

(** The two request bodies the limiter sends to the store. *)
Definition pipeline_body (context : RateContext) : list (list arg) :=
  [[AStr (str "INCR"); AStr (key context)];
   [AStr (str "TTL"); AStr (key context)]].

Definition expire_body (context : RateContext) : list (list arg) :=
  [[AStr (str "EXPIRE"); AStr (key context); ANum (ttlSeconds context)]].

Definition is_store_call (c : call) : Prop :=
  match c with CallUpstash _ => True | CallGemini _ => False end.

(** The store failures of the specification, as replies to the pipeline
    request: unreachable, a status that is not OK, a body that is no JSON
    array, or an array whose first entry (the counter) is not a finite
    number. *)
Inductive store_failure : HttpReply -> Prop :=
| unreachable : store_failure FetchRejects
| status_not_ok status data : store_failure (Response false status data)
| body_not_json ok status : store_failure (Response ok status JsonRejects)
| body_not_array ok status : store_failure (Response ok status JsonNotArray)
| counter_not_finite ok status entries :
    Number_isFinite (entries !! 0%nat) = false ->
    store_failure (Response ok status (JsonArray entries)).

(** [res.setHeader('Set-Cookie', h)] when a header is pending. *)
Definition attach (h : option jsstring) (r : VercelResponse) : VercelResponse :=
  match h with
  | Some v => {| statusCode := statusCode r; setCookie := Some v; json := json r |}
  | None => r
  end.

Definition respond (code : Z) (body : Json) (s : io) : io :=
  {| res := {| statusCode := code; setCookie := setCookie (res s);
               json := Some body |};
     calls := calls s |}.

(** The three rate contexts of the specification. *)
Definition combined_context (id : jsstring) : RateContext :=
  {| key := str "rl:combined:" ++ id; limit := 50; ttlSeconds := 3600 |}.
Definition cookie_context (cookieValue : jsstring) : RateContext :=
  {| key := str "rl:cookie:" ++ cookieValue; limit := 30; ttlSeconds := 3600 |}.
Definition ip_context (clientIp : jsstring) : RateContext :=
  {| key := str "rl:ip:" ++ clientIp; limit := 20; ttlSeconds := 3600 |}.

(** The request carries no usable [ideaspark_id] cookie: none, or an empty
    one. *)
Definition no_cookie (req : VercelRequest) : Prop :=
  parseCookies req !! COOKIE_NAME = None \/ parseCookies req !! COOKIE_NAME = Some [].

(** One step of the [reduce] of [parseCookies]. *)
Definition cookie_step (acc : gmap (list N) (list N)) (part : jsstring)
  : gmap (list N) (list N) :=
  match split 61 (trim part) with
  | name :: rest =>
      if truthy name then set_property name (join (str "=") rest) acc else acc
  | [] => acc
  end.

(** The name that a part of the [Cookie] header gives its cookie. *)
Definition part_name (part : jsstring) : jsstring := hd [] (split 61 (trim part)).

(** What follows a cookie in the header: nothing, or a semicolon and parts
    none of which carries the name [name]. *)
Definition no_later_pair (name tail : jsstring) : Prop :=
  tail = []
  \/ exists suffix, tail = 59%N :: suffix
                    /\ Forall (fun part => part_name part <> name) (split 59 suffix).

(** A supplied device identifier that has neither shape: no string, or a
    string that, trimmed, matches neither pattern. *)
Definition malformed (v : value) : Prop :=
  match v with
  | VString s => test HEX_64_REGEX (trim s) = false
                 /\ test UUID_REGEX (trim s) = false
  | _ => True
  end.

(** A cookie as a browser sends it: a name without [=] or [;] that does not
    start with white space, a value without [;] that does not end with white
    space. *)
Definition cookie_pair (name value : jsstring) : Prop :=
  name <> []
  /\ Forall (fun c => c <> 61%N /\ c <> 59%N) name
  /\ (forall c, head name = Some c -> is_whitespace c = false)
  /\ Forall (fun c => c <> 59%N) value
  /\ (forall d, last value = Some d -> is_whitespace d = false).

(** An identifier that can travel as a cookie value: not empty, without [;]
    and without white space. *)
Definition cookie_safe (id : jsstring) : Prop :=
  id <> [] /\ Forall (fun c => c <> 59%N /\ is_whitespace c = false) id.

(** The limiter as the handler runs it: on the context of the request, with
    the pending cookie already on the response. *)
Definition limiter_run (req : VercelRequest) (w : World) : result RateResult * io :=
  enforceRateLimit w (rate_context req (fst (issue_cookie req w)))
    {| res := attach (snd (issue_cookie req w)) fresh_response; calls := [] |}.

(** The ways the single-command request ([EXPIRE]) fails. *)
Inductive command_failure : HttpReply -> Prop :=
| command_unreachable : command_failure FetchRejects
| command_not_ok status data : command_failure (Response false status data)
| command_not_json ok status : command_failure (Response ok status JsonRejects)
| command_not_array ok status : command_failure (Response ok status JsonNotArray)
| command_empty ok status : command_failure (Response ok status (JsonArray [])).

(** *** Sample requests and worlds *)

Definition sample_uuid : jsstring := str "123e4567-e89b-42d3-a456-426614174000".
Definition sample_cookie : jsstring := str "9b2f0c1e-7a4d-4c55-8e21-0f6d3a9b7c10".

(** No body, no query, no cookie; the client address comes from the proxy. *)
Definition bare_request : VercelRequest :=
  {| body_category := VUndefined; body_deviceId := VUndefined;
     query_category := VUndefined; query_deviceId := VUndefined;
     headers_cookie := None;
     headers_x_forwarded_for := HString (str "203.0.113.7, 10.0.0.1");
     headers_x_real_ip := HUndefined;
     socket_remoteAddress := Some (str "10.0.0.1") |}.

(** A device identifier in upper case and a session cookie. *)
Definition device_request : VercelRequest :=
  {| body_category := VString (str "food");
     body_deviceId := VString (str "123E4567-E89B-42D3-A456-426614174000");
     query_category := VUndefined; query_deviceId := VUndefined;
     headers_cookie := Some (str "theme=dark; ideaspark_id=" ++ sample_cookie);
     headers_x_forwarded_for := HUndefined;
     headers_x_real_ip := HString (str "198.51.100.4");
     socket_remoteAddress := None |}.

(** The same identifier between a tab and a line feed. *)
Definition padded_request : VercelRequest :=
  {| body_category := VUndefined;
     body_deviceId := VUndefined;
     query_category := VUndefined;
     query_deviceId :=
       VArray [VString ([9%N] ++ str "123E4567-E89B-42D3-A456-426614174000"
                          ++ [10%N])];
     headers_cookie := None;
     headers_x_forwarded_for := HUndefined;
     headers_x_real_ip := HUndefined;
     socket_remoteAddress := None |}.

(** A configured server whose store answers every request with [reply] and
    whose generation service answers with an idea. *)
Definition world_with (reply : HttpReply) : World :=
  {| redis_configured := true;
     upstash := fun _ => reply;
     gemini := fun _ => GeminiText (Some (str " Take a ten-minute walk. "));
     crypto := Some {| randomUUID := Some (Returned sample_uuid); subtle := None |};
     Date_now := 1700000000000;
     Math_random_16 := str "0.8f3a91c2" |}.

Definition store_reply (count ttl : number) : HttpReply :=
  Response true 200 (JsonArray [count; ttl]).

Definition start : io := {| res := fresh_response; calls := [] |}.

(** A store that answers the pipeline with a first increment and fails on
    the [EXPIRE] that follows. *)
Definition expire_fails_world : World :=
  {| redis_configured := true;
     upstash := fun body =>
                  match body with
                  | [_; _] => store_reply (Fin 1) (Fin (-1))
                  | _ => Response false 500 JsonRejects
                  end;
     gemini := fun _ => GeminiThrows;
     crypto := None;
     Date_now := 1700000000000;
     Math_random_16 := str "0.8f3a91c2" |}.

(** A server without store configuration. *)
Definition unconfigured_world : World :=
  {| redis_configured := false;
     upstash := fun _ => store_reply (Fin 1) (Fin (-1));
     gemini := fun _ => GeminiText (Some (str "idea"));
     crypto := None;
     Date_now := 1700000000000;
     Math_random_16 := str "0.8f3a91c2" |}.

(** No cookie, and a device identifier of neither shape. *)
Definition malformed_request : VercelRequest :=
  {| body_category := VUndefined; body_deviceId := VString (str "not-a-uuid");
     query_category := VUndefined; query_deviceId := VUndefined;
     headers_cookie := None;
     headers_x_forwarded_for := HString (str "203.0.113.7");
     headers_x_real_ip := HUndefined;
     socket_remoteAddress := Some (str "10.0.0.1") |}.

(** The world of the next request: [crypto.randomUUID] gives another
    identifier. *)
Definition next_world (reply : HttpReply) : World :=
  {| redis_configured := true;
     upstash := fun _ => reply;
     gemini := fun _ => GeminiText (Some (str " Take a ten-minute walk. "));
     crypto := Some {| randomUUID := Some (Returned sample_cookie); subtle := None |};
     Date_now := 1700000001000;
     Math_random_16 := str "0.1c9e44d0" |}.

(** A session cookie followed by another cookie. *)
Definition followed_request : VercelRequest :=
  {| body_category := VUndefined; body_deviceId := VUndefined;
     query_category := VUndefined; query_deviceId := VUndefined;
     headers_cookie := Some (str "ideaspark_id=" ++ sample_uuid ++ str "; theme=dark");
     headers_x_forwarded_for := HUndefined;
     headers_x_real_ip := HUndefined;
     socket_remoteAddress := None |}.

(** A return visit: two cookies, the second of them the session cookie. *)
Definition returning_request : VercelRequest :=
  {| body_category := VUndefined; body_deviceId := VString (str "not-a-uuid");
     query_category := VUndefined; query_deviceId := VUndefined;
     headers_cookie := Some (str "ideaspark_id=old; ideaspark_id=" ++ sample_uuid);
     headers_x_forwarded_for := HUndefined;
     headers_x_real_ip := HUndefined;
     socket_remoteAddress := None |}.

End ServerSpec.

Module DeviceIdSpec.
Import DeviceId.

(** [crypto.randomUUID], when [crypto] has it, and [crypto.subtle.digest]. *)
Definition randomUUID_of (w : World) : option (result jsstring) :=
  match crypto w with Some c => randomUUID c | None => None end.

Definition digest_of (w : World) : option (jsstring -> result (list Byte.byte)) :=
  match crypto w with Some c => subtle c | None => None end.

(** The valid identifier that the storage holds, if it holds one. *)
Definition stored_id (st : Storage) : option jsstring :=
  match items st !! STORAGE_KEY with
  | Some e => if truthy e && isValidUuid e then Some e else None
  | None => None
  end.

(** What local storage holds under the identifier's key. *)
Definition persisted (w : World) : option jsstring :=
  match window w with
  | Some (Some st) => items st !! STORAGE_KEY
  | _ => None
  end.

(** Two lower-case hex digits per byte. *)
Definition hex_string (bytes : list Byte.byte) : jsstring :=
  join [] (map (fun b => padStart2 (toString16 (Byte.to_N b))) bytes).

(** *** Sample browsers *)

Definition empty_storage : Storage :=
  {| items := ∅; getItem_throws := false; setItem_throws := false |}.

(** A browser without [crypto] (an old one, or a page served over http). *)
Definition old_browser : World :=
  {| window := Some (Some empty_storage);
     crypto := None;
     Date_now := 1700000000000;
     Math_random_36 := str "0.k3j9x0qv7ab";
     fingerprint := Visitor (str "f1e2d3c4") |}.

(** A browser with [crypto], whose fingerprinting fails. *)
Definition modern_browser : World :=
  {| window := Some (Some empty_storage);
     crypto := Some {| randomUUID := Some (Returned (str "123e4567-e89b-42d3-a456-426614174000"));
                       subtle := Some (fun input =>
                                         Returned (repeat Byte.x5a 31 ++ [Byte.x07])) |};
     Date_now := 1700000000000;
     Math_random_36 := str "0.k3j9x0qv7ab";
     fingerprint := LoadRejects |}.

(** A browser without [crypto.subtle] whose storage holds an identifier in
    upper case. *)
Definition upper_case_browser : World :=
  {| window := Some (Some {| items := {[ STORAGE_KEY :=
                                          str "123E4567-E89B-42D3-A456-426614174000" ]};
                             getItem_throws := false;
                             setItem_throws := false |});
     crypto := Some {| randomUUID := Some (Returned (str "123e4567-e89b-42d3-a456-426614174000"));
                       subtle := None |};
     Date_now := 1700000000000;
     Math_random_36 := str "0.k3j9x0qv7ab";
     fingerprint := GetRejects |}.

(** The same browser at another time, with other random digits. *)
Definition later (w : World) (now : Z) (random : jsstring) : World :=
  {| window := window w;
     crypto := crypto w;
     Date_now := now;
     Math_random_36 := random;
     fingerprint := fingerprint w |}.

(** The value of a hex digit, and the byte that two of them stand for. *)
Definition hex_value (c : N) : N := (if c <? 58 then c - 48 else c - 87)%N.
Definition unhex_pair (h1 h2 : N) : option Byte.byte :=
  Byte.of_N (16 * hex_value h1 + hex_value h2).

End DeviceIdSpec.

Module GuardSpec.
Import Guard.

Definition stored_values (st : Stored) : list number :=
  match st with StoredArray values => values | _ => [] end.

(** A stored value is a finite stamp not older than 3 600 000 ms: the test
    of the program, which looks at the lower end only. *)
Definition recent (now : Z) (v : number) : bool :=
  match v with Fin t => now - 3600000 <=? t | _ => false end.

Definition count_recent (st : Stored) (now : Z) : nat :=
  length (List.filter (recent now) (stored_values st)).

(** A stored value is a finite stamp within the trailing 3 600 000 ms before
    [now]: not older than that, and not later than [now]. *)
Definition in_trailing_window (now : Z) (v : number) : bool :=
  match v with
  | Fin t => (now - 3600000 <=? t) && (t <=? now)
  | _ => false
  end.

Definition count_in_trailing_window (st : Stored) (now : Z) : nat :=
  length (List.filter (in_trailing_window now) (stored_values st)).


(** Twenty generations, one every minute from 12:00:00.000 on, as stored. *)
Definition busy_hour : Stored :=
  StoredArray (map (fun i => Fin (1700000000000 + 60000 * Z.of_nat i)) (rev (seq 0 20))).

(** The storage can be read: there is one, and [getItem] answers. *)
Definition readable (st : Stored) : Prop :=
  st <> NoStorage /\ st <> GetItemThrows.

(** One [recordGenerateIdea()] at each of the given times, in a storage that
    takes the writes. *)
Fixpoint record_all (st : Stored) (times : list Z) : result Stored :=
  match times with
  | [] => Returned st
  | t :: rest =>
      match recordGenerateIdea false st t with
      | Returned st' => record_all st' rest
      | Thrown => Thrown
      end
  end.

End GuardSpec.

Module HistorySpec.
Import History.

(** [a] does not come after [b]: the comparator is not positive. *)
Definition not_after (a b : IdeaHistoryItem) : Prop := compare_items a b <= 0.

(** [a] and [b] compare equal: same pin state and same time. *)
Definition same_rank (a b : IdeaHistoryItem) : bool := compare_items a b =? 0.

Definition readable (st : Stored) : Prop :=
  st <> NoStorage /\ st <> GetItemThrows.

Definition toggled (text0 : jsstring) (item : IdeaHistoryItem) : IdeaHistoryItem :=
  if bool_decide (text item = text0)
  then {| text := text item; category := category item;
          timestamp := timestamp item; pinned := negb (pinned item) |}
  else item.

(** A small history as stored: the second idea is pinned, the last element
    has lost its text. *)
Definition sample_history : Stored :=
  StoredItems
    [ {| text := str "Bake bread"; category := str "food";
         timestamp := 1700000000000; pinned := false |};
      {| text := str "Call a friend"; category := str "people";
         timestamp := 1690000000000; pinned := true |};
      {| text := str "Sketch a tree"; category := str "art";
         timestamp := 1700000300000; pinned := false |};
      {| text := []; category := str "art";
         timestamp := 1700000400000; pinned := true |} ].

End HistorySpec.

(** * Properties *)

(** ** Strings and patterns *)

(** Case analysis on the comparisons of code units in sight, pruning the
    impossible cases as they come. *)
Ltac code_unit_cases :=
  repeat (match goal with
          | H : context [N.leb ?a ?b] |- _ => destruct (N.leb_spec a b)
          | H : context [N.eqb ?a ?b] |- _ => destruct (N.eqb_spec a b)
          | |- context [N.leb ?a ?b] => destruct (N.leb_spec a b)
          | |- context [N.eqb ?a ?b] => destruct (N.eqb_spec a b)
          end; try lia; simpl in *; try discriminate);
  try reflexivity; try lia.

Section Strings.

Implicit Types (s : jsstring) (c : N) (p : list atom).

Lemma atom_not_whitespace a c :
  atom_matches a c = true -> is_whitespace c = false.
Proof.
  intros Ha. destruct (is_whitespace c) eqn:Hw; [exfalso | reflexivity].
  unfold is_whitespace in Hw.
  destruct a; unfold atom_matches, is_hex, is_digit, is_lower_hex, is_upper_hex in Ha;
    code_unit_cases.
Qed.

Lemma atom_ascii a c : atom_matches a c = true -> (c < 128)%N.
Proof.
  destruct a; unfold atom_matches, is_hex, is_digit, is_lower_hex, is_upper_hex;
    intros Ha; code_unit_cases.
Qed.

Lemma match_atoms_Forall p s :
  match_atoms p s = true -> Forall (fun c => exists a, atom_matches a c = true) s.
Proof.
  revert s. induction p as [|a p IH]; intros [|c s]; simpl; try discriminate.
  - constructor.
  - rewrite andb_true_iff. intros [Ha Hm]. constructor; eauto.
Qed.

Lemma match_atoms_length p s : match_atoms p s = true -> length s = length p.
Proof.
  revert s. induction p as [|a p IH]; intros [|c s]; simpl; try discriminate.
  - reflexivity.
  - rewrite andb_true_iff. intros [_ Hm]. f_equal. auto.
Qed.

(** A string accepted by a pattern of the program holds ASCII code units
    only, none of which is white space. *)
Lemma regex_test_ascii r s : test r s = true -> Forall (fun c => (c < 128)%N) s.
Proof.
  intros H. eapply Forall_impl; [apply (match_atoms_Forall _ _ H)|].
  intros c [a Ha]. eapply atom_ascii; eauto.
Qed.

Lemma regex_test_no_whitespace r s :
  test r s = true -> Forall (fun c => is_whitespace c = false) s.
Proof.
  intros H. eapply Forall_impl; [apply (match_atoms_Forall _ _ H)|].
  intros c [a Ha]. eapply atom_not_whitespace; eauto.
Qed.

Lemma trimStart_whitespace ws s :
  Forall (fun c => is_whitespace c = true) ws -> trimStart (ws ++ s) = trimStart s.
Proof.
  induction 1 as [|c ws Hc _ IH]; simpl; [reflexivity|]. now rewrite Hc.
Qed.

Lemma trimStart_head c s : is_whitespace c = false -> trimStart (c :: s) = c :: s.
Proof. intros H. simpl. now rewrite H. Qed.

Lemma trimStart_solid s :
  Forall (fun c => is_whitespace c = false) s -> trimStart s = s.
Proof. destruct 1; [reflexivity | now apply trimStart_head]. Qed.

(** [trim] strips exactly the white space around a core that has none. *)
Lemma trim_padded ws1 ws2 s :
  Forall (fun c => is_whitespace c = true) ws1 ->
  Forall (fun c => is_whitespace c = true) ws2 ->
  Forall (fun c => is_whitespace c = false) s ->
  s <> [] ->
  trim (ws1 ++ s ++ ws2) = s.
Proof.
  intros H1 H2 Hs Hne. unfold trim, trimEnd.
  rewrite trimStart_whitespace by assumption.
  destruct s as [|c s]; [congruence|].
  apply Forall_cons in Hs as [Hc Hs].
  rewrite <- app_comm_cons, trimStart_head by assumption.
  rewrite app_comm_cons, rev_app_distr.
  rewrite trimStart_whitespace by (apply Forall_rev; assumption).
  rewrite trimStart_solid; [apply rev_involutive|].
  apply Forall_rev. constructor; assumption.
Qed.

Lemma trim_solid s : Forall (fun c => is_whitespace c = false) s -> trim s = s.
Proof.
  intros Hs. destruct s as [|c s]; [reflexivity|].
  apply (trim_padded [] [] (c :: s)) in Hs; try constructor; try discriminate.
  now rewrite app_nil_r in Hs.
Qed.

End Strings.

(** ** The ceiling of a quotient *)

Lemma ceil_div_spec a k :
  0 < k -> k * (ceil_div a k - 1) < a <= k * ceil_div a k.
Proof. intros Hk. unfold ceil_div. Z.div_mod_to_equations. nia. Qed.

Lemma ceil_div_nonneg a k : 0 < k -> 0 <= a -> 0 <= ceil_div a k.
Proof. intros Hk Ha. unfold ceil_div. Z.div_mod_to_equations. nia. Qed.

(** ** The limiter and the gate *)

Module ServerFacts.
Import Server ServerSpec.

Ltac run_monad :=
  unfold enforceRateLimit, runUpstashPipeline, runUpstash, fetch_upstash,
    bind, try_catch, perform, throw, ret, res_status_json,
    res_setHeader_SetCookie in *;
  simpl in *.

(** Without configuration nothing is sent and the limiter throws. *)
Lemma enforce_unconfigured w context s :
  redis_configured w = false -> enforceRateLimit w context s = (Thrown, s).
Proof. intros H. run_monad. now rewrite H. Qed.

(** The limiter leaves the response alone; it sends the pipeline first and
    talks to nothing but the store. *)
Lemma enforce_effects w context s :
  redis_configured w = true ->
  exists r more,
    enforceRateLimit w context s
    = (r, {| res := res s;
             calls := calls s ++ CallUpstash (pipeline_body context) :: more |})
    /\ Forall is_store_call more.
Proof.
  intros H. run_monad. rewrite H. simpl. fold (pipeline_body context).
  fold (expire_body context).
  repeat case_match; simplify_eq;
    eexists _, _; (split; [simpl; rewrite <- ?(assoc_L (++)); reflexivity|]);
    repeat constructor.
Qed.

Lemma enforce_store_failure w context s :
  redis_configured w = true ->
  store_failure (upstash w (pipeline_body context)) ->
  enforceRateLimit w context s
  = (Thrown, {| res := res s;
                calls := calls s ++ [CallUpstash (pipeline_body context)] |}).
Proof.
  intros Hc Hf. run_monad. rewrite Hc. simpl. fold (pipeline_body context).
  inversion Hf as [Hr|st d Hr|ok st Hr|ok st Hr|ok st es Hn Hr];
    simpl; try reflexivity.
  - now destruct ok.
  - now destruct ok.
  - destruct ok; simpl; [|reflexivity]. now rewrite Hn.
Qed.

(** The gate, in terms of what the limiter does. *)
Lemma gate_unfold req w s :
  gate req w s
  = let context := rate_context req (fst (issue_cookie req w)) in
    let s1 := {| res := attach (snd (issue_cookie req w)) (res s);
                 calls := calls s |} in
    match enforceRateLimit w context s1 with
    | (Returned rate, s2) =>
        if allowed rate then (Returned true, s2)
        else (Returned false, respond 429 (JRateLimit (remainingMinutes rate)) s2)
    | (Thrown, s2) => (Returned false, respond 500 INTERNAL_SERVER_ERROR s2)
    end.
Proof.
  unfold gate. destruct (issue_cookie req w) as [cid [h|]]; simpl;
    unfold try_catch, bind, res_setHeader_SetCookie, ret, res_status_json, respond;
    simpl.
  - destruct (enforceRateLimit w _ _) as [[rate|] s2]; [|reflexivity].
    now destruct (allowed rate).
  - destruct s as [r c]; simpl.
    destruct (enforceRateLimit w _ _) as [[rate|] s2]; [|reflexivity].
    now destruct (allowed rate).
Qed.

(** The generation call answers 200 or 500, keeps the headers, and is the
    only call it makes. *)
Lemma generate_effects req w s :
  exists code body,
    generate req w s
    = (Returned tt,
       {| res := {| statusCode := code; setCookie := setCookie (res s);
                    json := Some body |};
          calls := calls s ++ [CallGemini (PROMPT_PREFIX ++ category_of req)] |})
    /\ (code = 200 \/ code = 500).
Proof.
  unfold generate, try_catch, bind, perform, throw, res_status_json. simpl.
  destruct (gemini w _) as [|[text|]]; simpl.
  - eexists _, _; split; [reflexivity | now right].
  - destruct (trim text); eexists _, _; (split; [reflexivity | auto]).
  - eexists _, _; split; [reflexivity | now right].
Qed.

(** The handler's first call to the outside increments the key of the
    context it classified the request into. *)
Lemma run_first_call req w :
  redis_configured w = true ->
  exists more,
    calls (run req w)
    = CallUpstash (pipeline_body (rate_context req (fst (issue_cookie req w))))
      :: more.
Proof.
  intros Hc. unfold run, handler, bind. rewrite gate_unfold. simpl.
  match goal with |- context [enforceRateLimit w ?c ?s] =>
    destruct (enforce_effects w c s Hc) as (r & more & -> & _) end.
  destruct r as [rate|]; [destruct (allowed rate)|]; simpl; eauto.
  match goal with |- context [generate req w ?s] =>
    destruct (generate_effects req w s) as (code & body & -> & _) end.
  simpl. eauto.
Qed.

(** ** Classification *)

Lemma accepted_not_empty s :
  test HEX_64_REGEX s = true \/ test UUID_REGEX s = true -> s <> [].
Proof. intros [H|H] ->; discriminate H. Qed.

Lemma accepted_no_whitespace s :
  test HEX_64_REGEX s = true \/ test UUID_REGEX s = true ->
  Forall (fun c => is_whitespace c = false) s.
Proof. intros [H|H]; eapply regex_test_no_whitespace; eassumption. Qed.

Lemma normalizeDeviceId_padded ws1 ws2 id :
  Forall (fun c => is_whitespace c = true) ws1 ->
  Forall (fun c => is_whitespace c = true) ws2 ->
  test HEX_64_REGEX id = true \/ test UUID_REGEX id = true ->
  normalizeDeviceId (VString (ws1 ++ id ++ ws2)) = Some (toLowerCase id).
Proof.
  intros H1 H2 Hid. unfold normalizeDeviceId.
  rewrite trim_padded; auto using accepted_no_whitespace, accepted_not_empty.
  destruct (test HEX_64_REGEX id); [reflexivity|].
  destruct Hid as [Hid| ->]; [discriminate | reflexivity].
Qed.

Lemma rate_context_combined req id cookieDeviceId :
  normalizeDeviceId (deviceId_of req) = Some (toLowerCase id) ->
  id <> [] ->
  rate_context req cookieDeviceId
  = {| key := str "rl:combined:" ++ toLowerCase id; limit := 50;
       ttlSeconds := 3600 |}.
Proof.
  intros Hn Hne. unfold rate_context. rewrite Hn.
  destruct id as [|c id]; [congruence | reflexivity].
Qed.

(** C2.  A request whose device identifier is a 64-digit hex string or has
    the UUID shape, in either case of the letters, is classified into the
    combined tier whatever cookie it carries: limit 50, key
    [rl:combined:] followed by the identifier in lower case; that is the key
    the handler then increments. *)
Theorem combined_tier req s cookieDeviceId :
  deviceId_of req = VString s ->
  test HEX_64_REGEX s = true \/ test UUID_REGEX s = true ->
  let context := {| key := str "rl:combined:" ++ toLowerCase s; limit := 50;
                    ttlSeconds := 3600 |} in
  rate_context req cookieDeviceId = context
  /\ forall w, redis_configured w = true ->
       exists more, calls (run req w) = CallUpstash (pipeline_body context) :: more.
Proof.
  intros Hd Hs context.
  assert (Hn : normalizeDeviceId (deviceId_of req) = Some (toLowerCase s)).
  { rewrite Hd. apply (normalizeDeviceId_padded [] [] s) in Hs; auto.
    now rewrite app_nil_r in Hs. }
  pose proof (fun c => rate_context_combined req s c Hn (accepted_not_empty s Hs)) as Hctx.
  split; [apply Hctx|].
  intros w Hc. destruct (run_first_call req w Hc) as [more Hm].
  rewrite Hctx in Hm. eauto.
Qed.

(** C10.  White space around a well-shaped device identifier is trimmed
    before the shape is checked: the padded identifier is accepted, and the
    request goes to the combined tier under the key built from the trimmed
    identifier in lower case. *)
Theorem padded_identifier_accepted req ws1 id ws2 cookieDeviceId :
  Forall (fun c => is_whitespace c = true) ws1 ->
  Forall (fun c => is_whitespace c = true) ws2 ->
  test HEX_64_REGEX id = true \/ test UUID_REGEX id = true ->
  deviceId_of req = VString (ws1 ++ id ++ ws2) ->
  trim (ws1 ++ id ++ ws2) = id
  /\ normalizeDeviceId (VString (ws1 ++ id ++ ws2)) = Some (toLowerCase id)
  /\ rate_context req cookieDeviceId
     = {| key := str "rl:combined:" ++ toLowerCase id; limit := 50;
          ttlSeconds := 3600 |}.
Proof.
  intros H1 H2 Hid Hd.
  pose proof (normalizeDeviceId_padded ws1 ws2 id H1 H2 Hid) as Hn.
  split; [|split]; [|exact Hn|].
  - apply trim_padded; auto using accepted_no_whitespace, accepted_not_empty.
  - apply rate_context_combined; [now rewrite Hd | now apply accepted_not_empty].
Qed.

Lemma combined_tier_witness :
  rate_context device_request (Some sample_cookie)
  = {| key := str "rl:combined:" ++ sample_uuid; limit := 50; ttlSeconds := 3600 |}.
Proof.
  apply (combined_tier device_request
           (str "123E4567-E89B-42D3-A456-426614174000") (Some sample_cookie));
    [reflexivity | right; reflexivity].
Defined.

Lemma padded_identifier_accepted_witness :
  rate_context padded_request None
  = {| key := str "rl:combined:" ++ sample_uuid; limit := 50; ttlSeconds := 3600 |}.
Proof.
  apply (padded_identifier_accepted padded_request [9%N]
           (str "123E4567-E89B-42D3-A456-426614174000") [10%N] None);
    [repeat constructor | repeat constructor | right; reflexivity | reflexivity].
Defined.

Lemma normalizeDeviceId_malformed v :
  malformed v <-> normalizeDeviceId v = None.
Proof.
  destruct v as [| | | |s| |]; simpl; try tauto.
  destruct (test HEX_64_REGEX (trim s)), (test UUID_REGEX (trim s));
    split; try discriminate; try tauto; intros [H1 H2]; discriminate.
Qed.

(** What the handler does with a request without a well-shaped device
    identifier: it counts it in the cookie tier (limit 30), under the value
    of its [ideaspark_id] cookie when it has one and otherwise under the
    identifier that it has just generated for the cookie to be set; the ip
    tier is left for the case that no identifier could be generated. *)
Lemma tier_without_device_id req w :
  malformed (deviceId_of req) ->
  let context := rate_context req (fst (issue_cookie req w)) in
  match parseCookies req !! COOKIE_NAME with
  | Some (c :: v) =>
      context = cookie_context (c :: v) /\ snd (issue_cookie req w) = None
  | _ =>
      match new_cookie_id w with
      | Returned (c :: uuid) =>
          context = cookie_context (c :: uuid)
          /\ snd (issue_cookie req w) = Some (createCookie (c :: uuid))
      | Returned [] | Thrown => context = ip_context (getClientIp req)
      end
  end.
Proof.
  intros Hn. apply normalizeDeviceId_malformed in Hn.
  unfold rate_context, issue_cookie. rewrite Hn.
  destruct (parseCookies req !! COOKIE_NAME) as [[|c v]|];
    try (split; reflexivity);
    destruct (new_cookie_id w) as [[|c uuid]|]; simpl;
    try reflexivity; split; reflexivity.
Qed.

(** C1.  The handler at a request with the device identifier [not-a-uuid]
    and no cookie: the identifier is rejected and there is no session
    cookie, yet the request is not counted under [rl:ip:] and the client
    address with limit 20, but under [rl:cookie:] and the identifier that is
    generated for the new cookie, with limit 30.  The same request sent
    again without the cookie is counted under another key, so the counter of
    such a client starts anew with every request, and both are let
    through. *)
Theorem cookieless_request_not_in_ip_tier :
  let req := malformed_request in
  let w1 := world_with (store_reply (Fin 1) (Fin (-1))) in
  let w2 := next_world (store_reply (Fin 1) (Fin (-1))) in
  deviceId_of req = VString (str "not-a-uuid")
  /\ normalizeDeviceId (deviceId_of req) = None
  /\ parseCookies req !! COOKIE_NAME = None
  /\ getClientIp req = str "203.0.113.7"
  /\ rate_context req (fst (issue_cookie req w1)) = cookie_context sample_uuid
  /\ rate_context req (fst (issue_cookie req w2)) = cookie_context sample_cookie
  /\ rate_context req (fst (issue_cookie req w1)) <> ip_context (getClientIp req)
  /\ rate_context req (fst (issue_cookie req w2)) <> ip_context (getClientIp req)
  /\ key (rate_context req (fst (issue_cookie req w1)))
     <> key (rate_context req (fst (issue_cookie req w2)))
  /\ hd_error (calls (run req w1))
     = Some (CallUpstash (pipeline_body (cookie_context sample_uuid)))
  /\ hd_error (calls (run req w2))
     = Some (CallUpstash (pipeline_body (cookie_context sample_cookie)))
  /\ statusCode (res (run req w1)) = 200
  /\ statusCode (res (run req w2)) = 200.
Proof. vm_compute. repeat split; discriminate. Qed.

(** ** Failing closed *)

Lemma run_limiter_throws req w s2 :
  enforceRateLimit w (rate_context req (fst (issue_cookie req w)))
    {| res := attach (snd (issue_cookie req w)) fresh_response; calls := [] |}
  = (Thrown, s2) ->
  run req w = respond 500 INTERNAL_SERVER_ERROR s2.
Proof.
  intros H. unfold run, handler, bind. rewrite gate_unfold. simpl.
  now rewrite H.
Qed.

(** C4.  When the store cannot be reached, answers with a status that is
    not OK, or sends a malformed reply (no array, or a counter that is not a
    finite number), the handler answers 500 with
    [{error: "Internal Server Error."}] and never calls the generation
    service; the answer is not the 429 of a denial. *)
Theorem store_failure_fails_closed req w :
  store_failure
    (upstash w (pipeline_body (rate_context req (fst (issue_cookie req w))))) ->
  statusCode (res (run req w)) = 500
  /\ json (res (run req w)) = Some (JError (str "Internal Server Error."))
  /\ Forall is_store_call (calls (run req w))
  /\ statusCode (res (run req w)) <> 429.
Proof.
  intros Hf. destruct (redis_configured w) eqn:Hc.
  - erewrite run_limiter_throws by (apply enforce_store_failure; assumption).
    simpl. repeat split; [repeat constructor | discriminate].
  - erewrite run_limiter_throws by (apply enforce_unconfigured; assumption).
    simpl. repeat split; [constructor | discriminate].
Qed.

Lemma store_failure_fails_closed_witness :
  statusCode (res (run bare_request (world_with FetchRejects))) = 500.
Proof.
  exact (proj1 (store_failure_fails_closed bare_request (world_with FetchRejects)
                  unreachable)).
Defined.

(** The same holds for every way the limiter can throw, the [EXPIRE] request
    and a missing configuration included. *)
Lemma limiter_throw_fails_closed req w s2 :
  enforceRateLimit w (rate_context req (fst (issue_cookie req w)))
    {| res := attach (snd (issue_cookie req w)) fresh_response; calls := [] |}
  = (Thrown, s2) ->
  statusCode (res (run req w)) = 500
  /\ json (res (run req w)) = Some INTERNAL_SERVER_ERROR
  /\ Forall is_store_call (calls (run req w)).
Proof.
  intros H. rewrite (run_limiter_throws _ _ _ H). simpl.
  repeat split. destruct (redis_configured w) eqn:Hc.
  - destruct (enforce_effects w (rate_context req (fst (issue_cookie req w)))
                {| res := attach (snd (issue_cookie req w)) fresh_response;
                   calls := [] |} Hc) as (r & more & Heq & Hmore).
    rewrite H in Heq. injection Heq as _ ->. simpl. constructor; [exact I | exact Hmore].
  - rewrite enforce_unconfigured in H by assumption. injection H as <-. constructor.
Qed.

(** ** The fixed window *)

(** What the limiter does once the store has answered the pipeline with a
    finite counter. *)
Lemma enforce_answered w context s status entries count :
  redis_configured w = true ->
  upstash w (pipeline_body context) = Response true status (JsonArray entries) ->
  entries !! 0%nat = Some (Fin count) ->
  enforceRateLimit w context s
  = let ttl := entries !! 1%nat in
    let fallback := Fin (Z.max 0 (ceil_div (ttlSeconds context) 60)) in
    if (count =? 1) || num_lt ttl 0 then
      let s2 := {| res := res s;
                   calls := calls s ++ [CallUpstash (pipeline_body context);
                                        CallUpstash (expire_body context)] |} in
      match upstash w (expire_body context) with
      | Response true _ (JsonArray (_ :: _)) =>
          (Returned {| allowed := count <=? limit context;
                       remainingMinutes := fallback |}, s2)
      | _ => (Thrown, s2)
      end
    else
      (Returned {| allowed := count <=? limit context;
                   remainingMinutes :=
                     match ttl with
                     | Some (Fin t) => Fin (ceil_div t 60)
                     | _ => fallback
                     end |},
       {| res := res s;
          calls := calls s ++ [CallUpstash (pipeline_body context)] |}).
Proof.
  intros Hc Hp H0. run_monad. rewrite Hc. simpl.
  fold (pipeline_body context). fold (expire_body context).
  rewrite Hp. simpl. rewrite H0. simpl.
  destruct ((count =? 1) || num_lt (entries !! 1%nat) 0) eqn:Hcond; simpl.
  - rewrite <- (assoc_L (++)). simpl.
    destruct (upstash w (expire_body context)) as [|[] st [| |[|e es]]];
      reflexivity.
  - apply orb_false_iff in Hcond as [_ Hlt].
    destruct (entries !! 1%nat) as [[t| | |]|]; simpl in *; try reflexivity.
    apply Z.ltb_ge in Hlt. apply Z.leb_le in Hlt as Hle. rewrite Hle. simpl.
    rewrite Z.max_r by (apply ceil_div_nonneg; lia). reflexivity.
Qed.

(** C5.  Once the store has answered, the limiter allows the request
    exactly when the counter after the increment is at most the limit of the
    context: every count up to the limit is allowed, every count from
    [limit + 1] on is refused. *)
Theorem allowed_iff_within_limit w context s status entries count status' e es :
  redis_configured w = true ->
  upstash w (pipeline_body context) = Response true status (JsonArray entries) ->
  entries !! 0%nat = Some (Fin count) ->
  upstash w (expire_body context) = Response true status' (JsonArray (e :: es)) ->
  exists rate s',
    enforceRateLimit w context s = (Returned rate, s')
    /\ allowed rate = (count <=? limit context)
    /\ (count <= limit context -> allowed rate = true)
    /\ (limit context + 1 <= count -> allowed rate = false).
Proof.
  intros Hc Hp H0 He. rewrite (enforce_answered _ _ _ _ _ _ Hc Hp H0). simpl.
  rewrite He.
  destruct ((count =? 1) || num_lt (entries !! 1%nat) 0);
    eexists _, _; (split; [reflexivity|]); simpl;
    (split; [reflexivity|]); split; intros; lia.
Qed.

Lemma allowed_iff_within_limit_witness :
  exists rate s',
    enforceRateLimit (world_with (store_reply (Fin 21) (Fin 1200)))
      (ip_context (str "203.0.113.7")) start = (Returned rate, s')
    /\ allowed rate = false.
Proof.
  destruct (allowed_iff_within_limit (world_with (store_reply (Fin 21) (Fin 1200)))
              (ip_context (str "203.0.113.7")) start 200
              [Fin 21; Fin 1200] 21 200 (Fin 21) [Fin 1200]
              eq_refl eq_refl eq_refl eq_refl)
    as (rate & s' & Hrun & Hallowed & _).
  exists rate, s'. split; [exact Hrun | exact Hallowed].
Defined.

(** With a counter above 1 and a time-to-live that is not a number, the
    limiter sets no expiry and still reports the minutes of a full window,
    which is not the ceiling of the observed time-to-live. *)
Lemma remaining_minutes_without_ttl :
  let w := world_with (store_reply (Fin 2) NaN) in
  let context := cookie_context sample_cookie in
  let count := Some (Fin 2) in
  let ttl := Some NaN in
  upstash w (pipeline_body context) = Response true 200 (JsonArray [Fin 2; NaN])
  /\ num_eq count 1 = false /\ num_lt ttl 0 = false
  /\ enforceRateLimit w context start
     = (Returned {| allowed := true; remainingMinutes := Fin 60 |},
        {| res := fresh_response; calls := [CallUpstash (pipeline_body context)] |})
  /\ Math_ceil_div NaN 60 <> Fin 60.
Proof. repeat split; try reflexivity. discriminate. Qed.

(** C6, amended.  After a pipeline answer with a finite counter: when the
    counter is 1 or the observed time-to-live is negative, the limiter sends
    [EXPIRE key ttlSeconds] and, when that request succeeds, returns
    [max(0, ceil(ttlSeconds / 60))] remaining minutes; otherwise it sends
    nothing more and returns [ceil(ttl / 60)] when the observed time-to-live
    is a finite number, and [max(0, ceil(ttlSeconds / 60))] when it is
    not. *)
Theorem expiry_and_remaining_minutes w context s status entries count :
  redis_configured w = true ->
  upstash w (pipeline_body context) = Response true status (JsonArray entries) ->
  entries !! 0%nat = Some (Fin count) ->
  let ttl := entries !! 1%nat in
  let out := enforceRateLimit w context s in
  let window := Fin (Z.max 0 (ceil_div (ttlSeconds context) 60)) in
  if (count =? 1) || num_lt ttl 0 then
    calls (snd out)
    = calls s ++ [CallUpstash (pipeline_body context);
                  CallUpstash (expire_body context)]
    /\ forall status' e es,
         upstash w (expire_body context) = Response true status' (JsonArray (e :: es)) ->
         exists rate, fst out = Returned rate /\ remainingMinutes rate = window
  else
    calls (snd out) = calls s ++ [CallUpstash (pipeline_body context)]
    /\ exists rate,
         fst out = Returned rate
         /\ remainingMinutes rate
            = match ttl with
              | Some (Fin t) => Fin (ceil_div t 60)
              | _ => window
              end.
Proof.
  intros Hc Hp H0. simpl. rewrite (enforce_answered _ _ _ _ _ _ Hc Hp H0). simpl.
  destruct ((count =? 1) || num_lt (entries !! 1%nat) 0); simpl.
  - split.
    + destruct (upstash w (expire_body context)) as [|[] st [| |[|e es]]];
        reflexivity.
    + intros status' e es ->. eexists. split; reflexivity.
  - split; [reflexivity|]. eexists. split; reflexivity.
Qed.

Lemma expiry_and_remaining_minutes_witness :
  calls (snd (enforceRateLimit (world_with (store_reply (Fin 1) (Fin (-1))))
                (ip_context (str "203.0.113.7")) start))
  = [CallUpstash (pipeline_body (ip_context (str "203.0.113.7")));
     CallUpstash (expire_body (ip_context (str "203.0.113.7")))].
Proof.
  exact (proj1 (expiry_and_remaining_minutes
                  (world_with (store_reply (Fin 1) (Fin (-1))))
                  (ip_context (str "203.0.113.7")) start 200
                  [Fin 1; Fin (-1)] 1 eq_refl eq_refl eq_refl)).
Defined.

(** ** The cookie header *)

Lemma enforce_res w context s : res (snd (enforceRateLimit w context s)) = res s.
Proof.
  destruct (redis_configured w) eqn:Hc.
  - destruct (enforce_effects w context s Hc) as (r & more & -> & _). reflexivity.
  - now rewrite enforce_unconfigured.
Qed.

(** Every answer of the handler is 200, 429 or 500 and carries the header
    that was pending, if any. *)
Lemma run_response req w :
  setCookie (res (run req w)) = snd (issue_cookie req w)
  /\ (statusCode (res (run req w)) = 200
      \/ statusCode (res (run req w)) = 429
      \/ statusCode (res (run req w)) = 500).
Proof.
  unfold run, handler, bind. rewrite gate_unfold. simpl.
  match goal with |- context [enforceRateLimit w ?c ?s] =>
    pose proof (enforce_res w c s) as Hres;
    destruct (enforceRateLimit w c s) as [[rate|] s2] end; simpl in Hres.
  - destruct (allowed rate); simpl.
    + destruct (generate_effects req w s2) as (code & body & -> & Hcode). simpl.
      rewrite Hres. split; [now destruct (snd (issue_cookie req w)) | tauto].
    + rewrite Hres. split; [now destruct (snd (issue_cookie req w)) | tauto].
  - simpl. rewrite Hres. split; [now destruct (snd (issue_cookie req w)) | tauto].
Qed.

(** C8.  On a first contact (no usable [ideaspark_id] cookie, identifier
    generated), the [Set-Cookie] header of the new cookie is on the
    response whichever way the request ends: 200, 429 or 500. *)
Theorem pending_cookie_attached req w uuid :
  no_cookie req ->
  new_cookie_id w = Returned uuid ->
  snd (issue_cookie req w) = Some (createCookie uuid)
  /\ setCookie (res (run req w)) = Some (createCookie uuid)
  /\ (statusCode (res (run req w)) = 200
      \/ statusCode (res (run req w)) = 429
      \/ statusCode (res (run req w)) = 500).
Proof.
  intros Hno Hnew.
  assert (Hp : snd (issue_cookie req w) = Some (createCookie uuid)).
  { unfold issue_cookie. destruct Hno as [-> | ->]; now rewrite Hnew. }
  destruct (run_response req w) as [Hc Hs]. rewrite Hp in Hc. auto.
Qed.

Lemma pending_cookie_attached_witness :
  setCookie (res (run bare_request (world_with (store_reply (Fin 31) (Fin 1800)))))
  = Some (createCookie sample_uuid).
Proof.
  exact (proj1 (proj2 (pending_cookie_attached bare_request
                         (world_with (store_reply (Fin 31) (Fin 1800)))
                         sample_uuid (or_introl eq_refl) eq_refl))).
Defined.

(** The three ways a first contact can end, each with the header. *)
Lemma first_contact_outcomes :
  let answer reply := res (run bare_request (world_with reply)) in
  let header := Some (createCookie sample_uuid) in
  answer (store_reply (Fin 1) (Fin (-1)))
  = {| statusCode := 200; setCookie := header;
       json := Some (JIdea (str "Take a ten-minute walk.")) |}
  /\ answer (store_reply (Fin 31) (Fin 1800))
     = {| statusCode := 429; setCookie := header;
          json := Some (JRateLimit (Fin 30)) |}
  /\ answer (Response false 503 JsonRejects)
     = {| statusCode := 500; setCookie := header;
          json := Some INTERNAL_SERVER_ERROR |}.
Proof. repeat split; vm_compute; reflexivity. Qed.

End ServerFacts.

(** ** The device identifier *)

Module DeviceIdFacts.
Import DeviceId DeviceIdSpec.

(** The fallback identifier starts with [device-], whose third letter is no
    hex digit. *)
Lemma fallback_not_uuid rest : isValidUuid (str "device-" ++ rest) = false.
Proof. reflexivity. Qed.

Lemma fresh_id_fallback w :
  randomUUID_of w = None ->
  fresh_id w
  = Returned (str "device-" ++ of_Z (Date_now w) ++ str "-"
              ++ slice 2 10 (Math_random_36 w)).
Proof.
  unfold randomUUID_of, fresh_id. destruct (crypto w) as [c|]; [|reflexivity].
  now intros ->.
Qed.

Lemma getDeviceId_stored w st e :
  window w = Some (Some st) -> getItem_throws st = false ->
  stored_id st = Some e ->
  getDeviceId w = (e, w) /\ e <> [] /\ isValidUuid e = true /\ persisted w = Some e.
Proof.
  unfold stored_id, getDeviceId, getItem, persisted. intros -> -> Hst.
  destruct (items st !! STORAGE_KEY) as [e'|]; [|discriminate].
  destruct (truthy e' && isValidUuid e') eqn:Hv; [|discriminate].
  injection Hst as ->. apply andb_true_iff in Hv as [Ht Hv].
  repeat split; auto. now intros ->.
Qed.

Lemma getDeviceId_regenerated w st :
  window w = Some (Some st) -> getItem_throws st = false ->
  setItem_throws st = false ->
  stored_id st = None ->
  match fresh_id w with
  | Returned fresh =>
      fst (getDeviceId w) = fresh /\ persisted (snd (getDeviceId w)) = Some fresh
  | Thrown => getDeviceId w = ([], w)
  end.
Proof.
  unfold stored_id, getDeviceId, getItem, setItem, persisted. intros -> -> -> Hst.
  assert (Hv : match items st !! STORAGE_KEY with
               | Some e => truthy e && isValidUuid e
               | None => false
               end = false).
  { destruct (items st !! STORAGE_KEY) as [e|]; [|reflexivity].
    now destruct (truthy e && isValidUuid e). }
  rewrite Hv. destruct (fresh_id w) as [fresh|]; [|reflexivity].
  simpl. split; [reflexivity | apply lookup_insert_eq].
Qed.

(** C3.  [getDeviceId] in a browser without [crypto.randomUUID] and with an
    empty storage: the identifier that it returns and stores is the fallback
    [device-1700000000000-k3j9x0qv], which is not empty and which its own
    test [isValidUuid] rejects. *)
Lemma fallback_identifier_returned :
  let id := fst (getDeviceId old_browser) in
  id = str "device-1700000000000-k3j9x0qv"
  /\ id <> []
  /\ persisted (snd (getDeviceId old_browser)) = Some id
  /\ isValidUuid id = false.
Proof. vm_compute. repeat split. discriminate. Qed.

(** What [getDeviceId] does with an accessible local storage: a stored
    identifier of the UUID shape is returned as it is; a stored value that is absent or
    of another shape is replaced by a newly generated identifier, which is
    stored and returned.  Every non-empty identifier returned is the one in
    storage.  It has the UUID shape when [crypto.randomUUID] is there and
    gives UUIDs; without [crypto.randomUUID] the new identifier is
    [device-], the clock, [-] and up to eight base-36 digits, which has not
    the UUID shape. *)
Theorem getDeviceId_identifier w st :
  window w = Some (Some st) ->
  getItem_throws st = false ->
  setItem_throws st = false ->
  let id := fst (getDeviceId w) in
  let w' := snd (getDeviceId w) in
  match stored_id st with
  | Some e => id = e /\ w' = w
  | None =>
      match fresh_id w with
      | Returned fresh => id = fresh /\ persisted w' = Some fresh
      | Thrown => id = []
      end
  end
  /\ (id <> [] -> persisted w' = Some id)
  /\ (forall u, randomUUID_of w = Some (Returned u) -> isValidUuid u = true ->
      id <> [] -> isValidUuid id = true)
  /\ (randomUUID_of w = None -> stored_id st = None ->
      id = str "device-" ++ of_Z (Date_now w) ++ str "-"
           ++ slice 2 10 (Math_random_36 w)
      /\ isValidUuid id = false).
Proof.
  intros Hw Hg Hs. cbv zeta. destruct (stored_id st) as [e|] eqn:Hst.
  - destruct (getDeviceId_stored w st e Hw Hg Hst) as (-> & Hne & Hv & Hp).
    cbn [fst snd]. repeat split; auto; discriminate.
  - pose proof (getDeviceId_regenerated w st Hw Hg Hs Hst) as Hr.
    destruct (fresh_id w) as [fresh|] eqn:Hf.
    + destruct Hr as [Hid Hp]. rewrite Hid. repeat split; auto.
      * intros u Hu Hvu _. unfold randomUUID_of, fresh_id in *.
        destruct (crypto w) as [c|]; [|discriminate]. rewrite Hu in Hf.
        now injection Hf as <-.
      * rewrite fresh_id_fallback in Hf by assumption. now injection Hf as <-.
      * rewrite fresh_id_fallback in Hf by assumption. injection Hf as <-.
        apply fallback_not_uuid.
    + rewrite Hr. cbn [fst snd]. repeat split; try congruence;
        rewrite fresh_id_fallback in Hf by assumption; discriminate.
Qed.

Lemma getDeviceId_identifier_witness :
  isValidUuid (fst (getDeviceId modern_browser)) = true.
Proof.
  apply (proj1 (proj2 (proj2 (getDeviceId_identifier modern_browser empty_storage
                                eq_refl eq_refl eq_refl)))
           (str "123e4567-e89b-42d3-a456-426614174000"));
    [reflexivity | reflexivity | discriminate].
Defined.

(** *** The digest in hex *)

Lemma join_nil_cons p ps : join [] (p :: ps) = p ++ join [] ps.
Proof. destruct ps; simpl; [now rewrite app_nil_r | reflexivity]. Qed.

Lemma byte_hex b :
  exists h1 h2, padStart2 (toString16 (Byte.to_N b)) = [h1; h2]
                /\ is_hex h1 = true /\ is_hex h2 = true.
Proof. destruct b; eexists _, _; repeat split. Qed.

Lemma hex_string_cons b bytes :
  hex_string (b :: bytes)
  = padStart2 (toString16 (Byte.to_N b)) ++ hex_string bytes.
Proof. unfold hex_string. simpl map. apply join_nil_cons. Qed.

Lemma hex_string_matches bytes :
  match_atoms (repeat Hex (2 * length bytes)) (hex_string bytes) = true.
Proof.
  induction bytes as [|b bytes IH]; [reflexivity|].
  rewrite hex_string_cons. destruct (byte_hex b) as (h1 & h2 & -> & H1 & H2).
  replace (2 * length (b :: bytes))%nat with (S (S (2 * length bytes))) by (simpl; lia).
  cbn [repeat app match_atoms atom_matches].
  now rewrite H1, H2, IH.
Qed.

Lemma hex_string_not_empty b bytes : hex_string (b :: bytes) <> [].
Proof.
  rewrite hex_string_cons. destruct (byte_hex b) as (h1 & h2 & -> & _).
  discriminate.
Qed.



End DeviceIdFacts.

(** ** The usage guard *)

Module GuardFacts.
Import Guard GuardSpec.

Lemma in_window_within now v :
  in_window (now - WINDOW_MS) v
  = if recent now v then match v with Fin t => Some t | _ => None end
    else None.
Proof.
  destruct v as [t| | |]; reflexivity.
Qed.

Lemma length_window (values : list number) now :
  length (omap (in_window (now - WINDOW_MS)) values)
  = length (List.filter (recent now) values).
Proof.
  induction values as [|v values IH]; [reflexivity|].
  cbn [omap list_omap List.filter]. rewrite in_window_within.
  destruct v as [t| | |]; cbn [recent]; auto.
  destruct (now - 3600000 <=? t); simpl; auto.
Qed.

Lemma elem_of_window (values : list number) now t :
  t ∈ omap (in_window (now - WINDOW_MS)) values
  <-> Fin t ∈ values /\ recent now (Fin t) = true.
Proof.
  rewrite list_elem_of_omap. split.
  - intros (v & Hv & Hin). rewrite in_window_within in Hin.
    destruct (recent now v) eqn:Hw; [|discriminate].
    destruct v; try discriminate. injection Hin as ->. auto.
  - intros [Hv Hw]. exists (Fin t). split; [assumption|].
    now rewrite in_window_within, Hw.
Qed.

Lemma length_loadTimestamps st now :
  length (loadTimestamps st now) = count_recent st now.
Proof.
  unfold count_recent. destruct st; try reflexivity.
  cbn [loadTimestamps stored_values].
  rewrite (Permutation_length (merge_sort_Permutation _ _)).
  apply length_window.
Qed.

(** The head of the loaded list is the oldest stamp of the window. *)
Lemma hd_loadTimestamps st now oldest rest :
  loadTimestamps st now = oldest :: rest ->
  Fin oldest ∈ stored_values st
  /\ recent now (Fin oldest) = true
  /\ forall t, Fin t ∈ stored_values st -> recent now (Fin t) = true ->
               oldest <= t.
Proof.
  destruct st as [| | | | |values]; try discriminate.
  cbn [loadTimestamps stored_values]. intros Hl.
  pose proof (merge_sort_Permutation Z.le
                (omap (in_window (now - WINDOW_MS)) values)) as Hp.
  pose proof (StronglySorted_merge_sort Z.le
                (omap (in_window (now - WINDOW_MS)) values)) as Hs.
  rewrite Hl in Hp, Hs.
  assert (Hin : forall t, t ∈ oldest :: rest
                          <-> Fin t ∈ values /\ recent now (Fin t) = true).
  { intros t. rewrite Hp. apply elem_of_window. }
  destruct (proj1 (Hin oldest)) as [Ho Hw]; [left|].
  repeat split; auto. intros t Ht Hwt.
  assert (Hm : t ∈ oldest :: rest) by (apply Hin; auto).
  apply StronglySorted_inv in Hs as [_ Hall].
  apply elem_of_cons in Hm as [->|Hm]; [lia|].
  rewrite Forall_forall in Hall. now apply Hall.
Qed.

Lemma count_without_later_stamps st now :
  Forall (fun v => forall t, v = Fin t -> t <= now) (stored_values st) ->
  count_in_trailing_window st now = count_recent st now.
Proof.
  intros Hpast. unfold count_in_trailing_window, count_recent. f_equal.
  apply filter_ext_in. intros v Hv. rewrite List.Forall_forall in Hpast.
  destruct v as [t| | |]; try reflexivity. cbn [in_trailing_window recent].
  specialize (Hpast _ Hv t eq_refl). apply Z.leb_le in Hpast.
  now rewrite Hpast, andb_true_r.
Qed.

(** Twenty stamps that are all later than [now]: none of them lies in the
    trailing 3 600 000 ms before [now], yet the guard counts them, refuses
    and reports 70 minutes. *)
Lemma later_stamps_are_counted :
  let now := 1699999400000 in
  count_in_trailing_window busy_hour now = 0%nat
  /\ canGenerateIdea busy_hour now = (false, 70)
  /\ ~ (fst (canGenerateIdea busy_hour now) = true
        <-> (count_in_trailing_window busy_hour now < 20)%nat).
Proof.
  vm_compute. repeat split. intros [_ H]. discriminate H. repeat constructor.
Qed.

(** C7, amended.  The guard allows a generation exactly when fewer than 20
    stored stamps are not older than 3 600 000 ms, stamps later than [now]
    counted with them; when it refuses, the minutes it reports are
    [ceil((3600000 - (now - oldest)) / 60000)] for the oldest of those
    stamps, and 0 instead of a negative number.  When no stored stamp is
    later than [now], the stamps counted are those of the trailing
    3 600 000 ms before [now]. *)
Theorem canGenerateIdea_window st now :
  let allowed := fst (canGenerateIdea st now) in
  let remaining := snd (canGenerateIdea st now) in
  (Forall (fun v => forall t, v = Fin t -> t <= now) (stored_values st) ->
   count_in_trailing_window st now = count_recent st now)
  /\ (allowed = true <-> (count_recent st now < 20)%nat)
  /\ (allowed = false ->
      exists oldest,
        Fin oldest ∈ stored_values st
        /\ recent now (Fin oldest) = true
        /\ (forall t, Fin t ∈ stored_values st ->
                      recent now (Fin t) = true -> oldest <= t)
        /\ remaining = Z.max 0 (ceil_div (3600000 - (now - oldest)) 60000)
        /\ 0 <= remaining).
Proof.
  cbv zeta. unfold canGenerateIdea. cbn [fst snd].
  pose proof (length_loadTimestamps st now) as Hlen.
  split; [apply count_without_later_stamps|]. split.
  - rewrite Nat.ltb_lt, Hlen. reflexivity.
  - intros Hdenied. rewrite Hdenied. unfold minutesUntilReset. rewrite Hdenied.
    apply Nat.ltb_ge in Hdenied.
    destruct (loadTimestamps st now) as [|oldest rest] eqn:Hl;
      [simpl in Hdenied; unfold LIMIT in Hdenied; lia|].
    exists oldest. destruct (hd_loadTimestamps st now oldest rest Hl) as (Ho & Hw & Hmin).
    repeat split; auto; cbn [hd]; change WINDOW_MS with 3600000;
      change (60 * 1000) with 60000;
      pose proof (ceil_div_spec (3600000 - (now - oldest)) 60000 eq_refl);
      destruct (Z.leb_spec (3600000 - (now - oldest)) 0); lia.
Qed.

(** Twenty generations within the hour: the guard refuses, and half an hour
    and a millisecond after the first it reports 30 minutes. *)
Lemma busy_hour_refused :
  canGenerateIdea busy_hour (1700000000000 + 1800001) = (false, 30)
  /\ ceil_div (3600000 - 1800001) 60000 = 30.
Proof. split; vm_compute; reflexivity. Qed.

End GuardFacts.

(** * Further properties of the code *)

(** ** More on strings: [split], [join] and [trim] *)

Section StringOps.

Implicit Types (s a b : jsstring) (c sep : N).

Lemma split_not_nil sep s : split sep s <> [].
Proof.
  destruct s as [|c s]; simpl; [discriminate|].
  destruct (c =? sep)%N; [discriminate|]. destruct (split sep s); discriminate.
Qed.

Lemma split_cons_other sep c s :
  c <> sep ->
  exists p ps, split sep s = p :: ps /\ split sep (c :: s) = (c :: p) :: ps.
Proof.
  intros Hc. simpl. apply N.eqb_neq in Hc. rewrite Hc.
  destruct (split sep s) as [|p ps] eqn:Hs; [now apply split_not_nil in Hs|].
  eauto.
Qed.

Lemma split_no_sep sep s : Forall (fun c => c <> sep) s -> split sep s = [s].
Proof.
  induction 1 as [|c s Hc _ IH]; [reflexivity|].
  destruct (split_cons_other sep c s Hc) as (p & ps & Hs & ->).
  rewrite IH in Hs. now injection Hs as <- <-.
Qed.

(** Splitting at a separator splits the pieces on both sides of it. *)
Lemma split_app_sep sep a b :
  split sep (a ++ sep :: b) = split sep a ++ split sep b.
Proof.
  induction a as [|c a IH].
  - simpl. now rewrite N.eqb_refl.
  - destruct (N.eq_dec c sep) as [->|Hc].
    + simpl. rewrite N.eqb_refl. simpl. now rewrite IH.
    + destruct (split_cons_other sep c a Hc) as (p & ps & Hs & ->).
      destruct (split_cons_other sep c (a ++ sep :: b) Hc) as (p' & ps' & Hs' & Heq).
      rewrite <- app_comm_cons, Heq. rewrite IH, Hs in Hs'. simpl in Hs'.
      now injection Hs' as <- <-.
Qed.

Lemma split_prefix sep a b :
  Forall (fun c => c <> sep) a -> split sep (a ++ sep :: b) = a :: split sep b.
Proof. intros Ha. now rewrite split_app_sep, split_no_sep. Qed.

(** [s.split(sep).join(sep)] is [s]. *)
Lemma join_split sep s : join [sep] (split sep s) = s.
Proof.
  induction s as [|c s IH]; [reflexivity|].
  destruct (N.eq_dec c sep) as [->|Hc].
  - simpl split. rewrite N.eqb_refl.
    destruct (split sep s) as [|p ps] eqn:Hs; [now apply split_not_nil in Hs|].
    change (join [sep] ([] :: p :: ps)) with (sep :: join [sep] (p :: ps)).
    now rewrite IH.
  - destruct (split_cons_other sep c s Hc) as (p & ps & Hs & ->).
    rewrite Hs in IH. destruct ps as [|q qs]; simpl in *; now rewrite IH.
Qed.

Lemma trimStart_app_solid x c y :
  is_whitespace c = false -> trimStart (x ++ c :: y) = trimStart x ++ c :: y.
Proof.
  intros Hc. induction x as [|d x IH]; simpl; [now rewrite Hc|].
  now destruct (is_whitespace d).
Qed.



(** White space around a core that starts and ends with other characters is
    what [trim] removes. *)
Lemma trim_core ws1 ws2 s c d :
  Forall (fun c => is_whitespace c = true) ws1 ->
  Forall (fun c => is_whitespace c = true) ws2 ->
  head s = Some c -> is_whitespace c = false ->
  last s = Some d -> is_whitespace d = false ->
  trim (ws1 ++ s ++ ws2) = s.
Proof.
  intros H1 H2 Hh Hc Hl Hd. unfold trim, trimEnd.
  rewrite trimStart_whitespace by assumption.
  destruct s as [|c' s]; [discriminate|]. injection Hh as ->.
  rewrite <- app_comm_cons, trimStart_head by assumption.
  rewrite app_comm_cons, rev_app_distr.
  rewrite trimStart_whitespace by (apply Forall_rev; assumption).
  apply last_Some in Hl as [l' Hl']. rewrite Hl', rev_app_distr. simpl.
  rewrite Hd. simpl. now rewrite rev_involutive.
Qed.



End StringOps.

(** ** More on the server *)

Module ServerMore.
Import Server ServerSpec ServerFacts.

(** *** The client address *)

(** X1.  When [x-forwarded-for] is a non-empty string, the client address is
    what stands before its first comma, trimmed, whatever [x-real-ip] and the
    socket say. *)
Theorem getClientIp_first_forwarded req first tail :
  headers_x_forwarded_for req = HString (first ++ tail) ->
  Forall (fun c => c <> 44%N) first ->
  tail = [] \/ (exists rest, tail = 44%N :: rest) ->
  first ++ tail <> [] ->
  getClientIp req = trim first.
Proof.
  intros Hx Hf Ht Hne. unfold getClientIp. rewrite Hx.
  destruct (first ++ tail) as [|c xff] eqn:Hxff; [congruence|].
  cbn [truthy]. rewrite <- Hxff. f_equal.
  destruct Ht as [->|[rest ->]].
  - now rewrite app_nil_r, split_no_sep.
  - now rewrite split_prefix.
Qed.

Lemma getClientIp_first_forwarded_witness :
  getClientIp bare_request = trim (str "203.0.113.7").
Proof.
  apply (getClientIp_first_forwarded bare_request (str "203.0.113.7")
           (str ", 10.0.0.1")).
  - reflexivity.
  - repeat constructor; discriminate.
  - right. eexists. reflexivity.
  - discriminate.
Defined.

(** *** Cookies *)

Lemma parseCookies_fold req header :
  headers_cookie req = Some header -> header <> [] ->
  parseCookies req = foldl cookie_step ∅ (split 59 header).
Proof.
  intros Hh Hne. unfold parseCookies. rewrite Hh.
  destruct header; [congruence | reflexivity].
Qed.

Lemma parseCookies_empty req :
  headers_cookie req = None \/ headers_cookie req = Some [] ->
  parseCookies req = ∅.
Proof. unfold parseCookies. now intros [-> | ->]. Qed.

Lemma whitespace_not_semicolon ws :
  Forall (fun c => is_whitespace c = true) ws -> Forall (fun c => c <> 59%N) ws.
Proof.
  intros H. eapply Forall_impl; [exact H|]. intros c Hc ->. discriminate.
Qed.

Lemma last_pair name value d :
  last (name ++ 61%N :: value) = Some d ->
  (value = [] /\ d = 61%N) \/ last value = Some d.
Proof.
  destruct value as [|v value].
  - rewrite last_snoc. intros [= <-]. now left.
  - rewrite last_app_cons, last_cons_cons. auto.
Qed.

(** One [name=value] part of the header, white space before it or not, puts
    [value] (whole, with the [=] it may hold) under [name]. *)
Lemma cookie_step_pair acc ws name value :
  Forall (fun c => is_whitespace c = true) ws ->
  cookie_pair name value ->
  name <> str "__proto__" ->
  cookie_step acc (ws ++ name ++ 61%N :: value) = <[name := value]> acc.
Proof.
  intros Hws (Hne & Hname & Hhead & _ & Hlast) Hproto. unfold cookie_step.
  destruct name as [|c name]; [congruence|].
  destruct (last ((c :: name) ++ 61%N :: value)) as [d|] eqn:Hd;
    [|apply last_None in Hd; discriminate].
  assert (Hwd : is_whitespace d = false).
  { apply last_pair in Hd as [[_ ->]|Hd']; [reflexivity | now apply Hlast]. }
  pose proof (trim_core ws [] ((c :: name) ++ 61%N :: value) c d Hws) as Ht.
  rewrite app_nil_r in Ht.
  rewrite Ht;
    [|constructor | reflexivity | apply Hhead; reflexivity | exact Hd | exact Hwd].
  rewrite split_prefix by (eapply Forall_impl; [exact Hname|]; now intros x [H _]).
  cbn [truthy]. change (str "=") with [61%N]. rewrite join_split.
  unfold set_property. now rewrite bool_decide_eq_false_2.
Qed.

(** A part that names another cookie leaves the value of [name] alone. *)
Lemma cookie_step_other acc part name :
  part_name part <> name -> cookie_step acc part !! name = acc !! name.
Proof.
  unfold part_name, cookie_step. intros Hn.
  destruct (split 61 (trim part)) as [|n rest]; [reflexivity|]. cbn [hd] in Hn.
  destruct (truthy n); [|reflexivity]. unfold set_property.
  destruct (bool_decide (n = str "__proto__")); [reflexivity|].
  now apply lookup_insert_ne.
Qed.

Lemma foldl_cookie_step_other parts acc name :
  Forall (fun part => part_name part <> name) parts ->
  foldl cookie_step acc parts !! name = acc !! name.
Proof.
  intros H. revert acc. induction H as [|part parts Hp _ IH]; intros acc;
    [reflexivity|].
  cbn [foldl]. rewrite IH. now apply cookie_step_other.
Qed.

(** The object never gets an own property [__proto__]. *)
Lemma cookie_step_proto acc part :
  acc !! str "__proto__" = None -> cookie_step acc part !! str "__proto__" = None.
Proof.
  intros Hacc. unfold cookie_step.
  destruct (split 61 (trim part)) as [|n rest]; [assumption|].
  destruct (truthy n); [|assumption]. unfold set_property.
  destruct (bool_decide (n = str "__proto__")) eqn:Hd; [assumption|].
  apply bool_decide_eq_false in Hd. now rewrite lookup_insert_ne.
Qed.

Lemma parseCookies_proto req : parseCookies req !! str "__proto__" = None.
Proof.
  destruct (headers_cookie req) as [[|c header]|] eqn:Hh;
    try (rewrite parseCookies_empty by auto; apply lookup_empty).
  rewrite (parseCookies_fold _ _ Hh) by discriminate.
  generalize (split 59 (c :: header)). intros parts.
  assert (H0 : (∅ : gmap (list N) (list N)) !! str "__proto__" = None)
    by apply lookup_empty.
  revert H0. generalize (∅ : gmap (list N) (list N)).
  induction parts as [|part parts IH]; intros acc Hacc; [assumption|].
  cbn [foldl]. apply IH. now apply cookie_step_proto.
Qed.

(** The parts of a header around one of them. *)
Lemma split_header_around prefix part tail :
  prefix = [] \/ (exists h, prefix = h ++ [59%N]) ->
  Forall (fun c => c <> 59%N) part ->
  exists before,
    (tail = [] -> split 59 (prefix ++ part ++ tail) = before ++ [part])
    /\ (forall suffix, tail = 59%N :: suffix ->
        split 59 (prefix ++ part ++ tail) = before ++ part :: split 59 suffix).
Proof.
  intros Hp Hpart. destruct Hp as [->|[h ->]].
  - exists []. split.
    + intros ->. rewrite app_nil_r. simpl. now apply split_no_sep.
    + intros suffix ->. simpl. now apply split_prefix.
  - exists (split 59 h). split.
    + intros ->. rewrite app_nil_r, <- app_assoc. simpl.
      now rewrite split_app_sep, (split_no_sep _ part).
    + intros suffix ->. rewrite <- app_assoc. simpl.
      now rewrite split_app_sep, split_prefix.
Qed.

(** A [name=value] pair of the header that no later part overrides decides
    the value of [name]. *)
Lemma parseCookies_pair_lookup req prefix ws name value tail :
  headers_cookie req = Some (prefix ++ ws ++ name ++ 61%N :: value ++ tail) ->
  prefix = [] \/ (exists h, prefix = h ++ [59%N]) ->
  Forall (fun c => is_whitespace c = true) ws ->
  cookie_pair name value ->
  name <> str "__proto__" ->
  no_later_pair name tail ->
  parseCookies req !! name = Some value.
Proof.
  intros Hh Hp Hws Hpair Hproto Hlater.
  assert (Hassoc : prefix ++ ws ++ name ++ 61%N :: value ++ tail
                   = prefix ++ (ws ++ name ++ 61%N :: value) ++ tail)
    by now rewrite <- !app_assoc.
  rewrite Hassoc in Hh.
  assert (Hpart : Forall (fun c => c <> 59%N) (ws ++ name ++ 61%N :: value)).
  { destruct Hpair as (_ & Hname & _ & Hvalue & _).
    apply Forall_app. split; [now apply whitespace_not_semicolon|].
    apply Forall_app. split.
    - eapply Forall_impl; [exact Hname|]. now intros x [_ H].
    - constructor; [discriminate | assumption]. }
  rewrite (parseCookies_fold _ _ Hh)
    by (destruct Hpair as (Hne & _); destruct prefix, ws, name; simpl; congruence).
  destruct (split_header_around prefix _ tail Hp Hpart) as (before & Hnil & Hcons).
  destruct Hlater as [->|(suffix & -> & Hsuffix)].
  - rewrite Hnil by reflexivity. rewrite foldl_app. cbn [foldl].
    rewrite cookie_step_pair by assumption. apply lookup_insert_eq.
  - rewrite (Hcons suffix eq_refl). rewrite foldl_app. cbn [foldl].
    rewrite foldl_cookie_step_other by assumption.
    rewrite cookie_step_pair by assumption. apply lookup_insert_eq.
Qed.

(** X2.  In [parseCookies], a [name=value] pair of the [Cookie] header that
    no later part of the header overrides decides the value of [name],
    whatever stands before it (an earlier cookie of the same name included)
    and whatever other cookies follow it; the value is kept whole, with any
    [=] it holds.  The one name that is never stored is [__proto__]. *)
Theorem parseCookies_last_cookie req :
  parseCookies req !! str "__proto__" = None
  /\ forall prefix ws name value tail,
       headers_cookie req = Some (prefix ++ ws ++ name ++ 61%N :: value ++ tail) ->
       prefix = [] \/ (exists h, prefix = h ++ [59%N]) ->
       Forall (fun c => is_whitespace c = true) ws ->
       cookie_pair name value ->
       name <> str "__proto__" ->
       no_later_pair name tail ->
       parseCookies req !! name = Some value.
Proof.
  split; [apply parseCookies_proto|].
  intros prefix ws name value tail. apply parseCookies_pair_lookup.
Qed.

Lemma cookie_safe_pair id : cookie_safe id -> cookie_pair COOKIE_NAME id.
Proof.
  intros [Hne Hid]. repeat split.
  - discriminate.
  - repeat constructor; discriminate.
  - intros c [= <-]. reflexivity.
  - eapply Forall_impl; [exact Hid|]. now intros c [H _].
  - intros d Hd. apply last_Some in Hd as [l ->].
    apply Forall_app in Hid as [_ Hd]. now apply Forall_singleton in Hd as [_ Hd].
Qed.

Lemma parseCookies_last_cookie_witness :
  parseCookies returning_request !! COOKIE_NAME = Some sample_uuid
  /\ parseCookies followed_request !! COOKIE_NAME = Some sample_uuid.
Proof.
  split.
  - apply (proj2 (parseCookies_last_cookie returning_request)
             (str "ideaspark_id=old;") [32%N] COOKIE_NAME sample_uuid []).
    + reflexivity.
    + right. exists (str "ideaspark_id=old"). reflexivity.
    + repeat constructor.
    + apply cookie_safe_pair. split; [discriminate | repeat constructor; discriminate].
    + discriminate.
    + now left.
  - apply (proj2 (parseCookies_last_cookie followed_request)
             [] [] COOKIE_NAME sample_uuid (str "; theme=dark")).
    + reflexivity.
    + now left.
    + constructor.
    + apply cookie_safe_pair. split; [discriminate | repeat constructor; discriminate].
    + discriminate.
    + right. exists (str " theme=dark"). split; [reflexivity|].
      repeat constructor. discriminate.
Defined.

(** X3.  Identity continuity: when the identifier issued on a first contact
    comes back as an [ideaspark_id] cookie of the header, before or after
    other cookies and with no later [ideaspark_id] pair behind it, the
    request is counted under the key of the first contact, [rl:cookie:] and
    the identifier, and no new cookie is issued. *)
Theorem issued_cookie_recognised req1 w1 uuid req2 w2 prefix ws tail :
  normalizeDeviceId (deviceId_of req1) = None ->
  no_cookie req1 ->
  new_cookie_id w1 = Returned uuid ->
  cookie_safe uuid ->
  normalizeDeviceId (deviceId_of req2) = None ->
  headers_cookie req2 = Some (prefix ++ ws ++ COOKIE_NAME ++ 61%N :: uuid ++ tail) ->
  prefix = [] \/ (exists h, prefix = h ++ [59%N]) ->
  Forall (fun c => is_whitespace c = true) ws ->
  no_later_pair COOKIE_NAME tail ->
  issue_cookie req1 w1 = (Some uuid, Some (createCookie uuid))
  /\ issue_cookie req2 w2 = (Some uuid, None)
  /\ rate_context req1 (fst (issue_cookie req1 w1)) = cookie_context uuid
  /\ rate_context req2 (fst (issue_cookie req2 w2)) = cookie_context uuid.
Proof.
  intros Hn1 Hno Hnew Hsafe Hn2 Hh Hp Hws Hlater.
  assert (Hc : parseCookies req2 !! COOKIE_NAME = Some uuid).
  { apply (parseCookies_pair_lookup req2 prefix ws COOKIE_NAME uuid tail);
      auto using cookie_safe_pair. }
  destruct Hsafe as [Hne _]. destruct uuid as [|c uuid]; [congruence|].
  assert (H1 : issue_cookie req1 w1 = (Some (c :: uuid), Some (createCookie (c :: uuid)))).
  { unfold issue_cookie. destruct Hno as [-> | ->]; now rewrite Hnew. }
  assert (H2 : issue_cookie req2 w2 = (Some (c :: uuid), None)).
  { unfold issue_cookie. now rewrite Hc. }
  rewrite H1, H2. repeat split; unfold rate_context; cbn [fst];
    [rewrite Hn1 | rewrite Hn2]; reflexivity.
Qed.

Lemma issued_cookie_recognised_witness :
  rate_context followed_request
    (fst (issue_cookie followed_request (world_with FetchRejects)))
  = cookie_context sample_uuid.
Proof.
  refine (proj2 (proj2 (proj2
            (issued_cookie_recognised bare_request (world_with FetchRejects)
               sample_uuid followed_request (world_with FetchRejects)
               [] [] (str "; theme=dark")
               eq_refl (or_introl eq_refl) eq_refl _ eq_refl eq_refl _ _ _)))).
  - split; [discriminate | repeat constructor; discriminate].
  - now left.
  - constructor.
  - right. exists (str " theme=dark"). split; [reflexivity|].
    repeat constructor. discriminate.
Defined.

(** *** Device identifiers *)

Lemma atom_matches_lower a c :
  atom_matches a c = true ->
  atom_matches a (lower c) = true
  /\ is_digit (lower c) || is_lower_hex (lower c) || (lower c =? 45)%N = true
  /\ lower (lower c) = lower c.
Proof.
  destruct a; unfold atom_matches, is_hex, is_digit, is_lower_hex, is_upper_hex,
    lower; intros Ha; repeat split; code_unit_cases.
Qed.

Lemma match_atoms_lower p s :
  match_atoms p s = true ->
  match_atoms p (toLowerCase s) = true
  /\ Forall (fun c => is_digit c || is_lower_hex c || (c =? 45)%N = true)
            (toLowerCase s)
  /\ toLowerCase (toLowerCase s) = toLowerCase s.
Proof.
  revert s. induction p as [|a p IH]; intros [|c s]; simpl; try discriminate.
  - intros _. repeat split. constructor.
  - rewrite andb_true_iff. intros [Ha Hm].
    destruct (atom_matches_lower a c Ha) as (Ha' & Hc & Hl).
    destruct (IH s Hm) as (Hm' & Hf & Hi). unfold toLowerCase in *.
    rewrite Ha', Hm', Hl, Hi. repeat split. now constructor.
Qed.

(** X4.  Whatever value is supplied, an identifier that [normalizeDeviceId]
    accepts comes out in canonical form: 64 or 36 code units among [0-9],
    [a-f] and [-], which [normalizeDeviceId] maps to itself. *)
Theorem normalizeDeviceId_canonical v id :
  normalizeDeviceId v = Some id ->
  (length id = 64%nat \/ length id = 36%nat)
  /\ Forall (fun c => is_digit c || is_lower_hex c || (c =? 45)%N = true) id
  /\ normalizeDeviceId (VString id) = Some id.
Proof.
  destruct v as [| | | |s| |]; try discriminate. unfold normalizeDeviceId at 1.
  assert (Hgen : forall r, test r (trim s) = true ->
            length (toLowerCase (trim s)) = length (expand r)
            /\ Forall (fun c => is_digit c || is_lower_hex c || (c =? 45)%N = true)
                      (toLowerCase (trim s))
            /\ test r (toLowerCase (trim s)) = true
            /\ trim (toLowerCase (trim s)) = toLowerCase (trim s)
            /\ toLowerCase (toLowerCase (trim s)) = toLowerCase (trim s)).
  { intros r Hr. destruct (match_atoms_lower _ _ Hr) as (Hm & Hf & Hi).
    repeat split; auto.
    - unfold toLowerCase. rewrite length_map. now apply match_atoms_length.
    - apply trim_solid. eapply regex_test_no_whitespace. exact Hm. }
  destruct (test HEX_64_REGEX (trim s)) eqn:Hhex.
  - intros [= <-]. destruct (Hgen _ Hhex) as (Hlen & Hf & Ht & Htrim & Hlow).
    repeat split; [now left | assumption|].
    unfold normalizeDeviceId. now rewrite Htrim, Ht, Hlow.
  - destruct (test UUID_REGEX (trim s)) eqn:Huuid; [|discriminate].
    intros [= <-]. destruct (Hgen _ Huuid) as (Hlen & Hf & Ht & Htrim & Hlow).
    repeat split; [now right | assumption|].
    unfold normalizeDeviceId. rewrite Htrim, Ht, Hlow.
    now destruct (test HEX_64_REGEX (toLowerCase (trim s))).
Qed.

Lemma normalizeDeviceId_canonical_witness :
  normalizeDeviceId (VString sample_uuid) = Some sample_uuid.
Proof.
  exact (proj2 (proj2 (normalizeDeviceId_canonical
                         (VString (str " 123E4567-E89B-42D3-A456-426614174000"))
                         sample_uuid eq_refl))).
Defined.

(** *** Counter keys *)

Lemma rate_context_cases req cookieDeviceId :
  (exists id, rate_context req cookieDeviceId = combined_context id)
  \/ (exists v, rate_context req cookieDeviceId = cookie_context v)
  \/ rate_context req cookieDeviceId = ip_context (getClientIp req).
Proof.
  unfold rate_context.
  destruct (normalizeDeviceId (deviceId_of req)) as [[|c id]|];
    destruct cookieDeviceId as [[|d v]|]; eauto.
Qed.

(** X5.  The three tiers count under disjoint keys: two requests that are
    counted under the same key are in the same tier, with the same limit and
    the same window, whatever cookie values and addresses the clients
    send. *)
Theorem counter_key_determines_context req1 cookie1 req2 cookie2 :
  key (rate_context req1 cookie1) = key (rate_context req2 cookie2) ->
  rate_context req1 cookie1 = rate_context req2 cookie2.
Proof.
  destruct (rate_context_cases req1 cookie1) as [[a ->]|[[a ->]| ->]];
    destruct (rate_context_cases req2 cookie2) as [[b ->]|[[b ->]| ->]];
    unfold combined_context, cookie_context, ip_context; cbn [key]; intros H;
    first [ apply app_inv_head in H; now rewrite H
          | apply (f_equal (take 6)) in H; vm_compute in H; discriminate H ].
Qed.

Lemma counter_key_determines_context_witness :
  rate_context device_request None = rate_context device_request (Some sample_cookie).
Proof.
  apply (counter_key_determines_context device_request None device_request
           (Some sample_cookie)).
  reflexivity.
Defined.

(** *** What the handler answers *)

Lemma enforce_returned_inv w context s rate s' :
  enforceRateLimit w context s = (Returned rate, s') ->
  redis_configured w = true
  /\ exists status entries count,
       upstash w (pipeline_body context) = Response true status (JsonArray entries)
       /\ entries !! 0%nat = Some (Fin count).
Proof.
  intros H. destruct (redis_configured w) eqn:Hc;
    [|rewrite enforce_unconfigured in H by assumption; discriminate].
  split; [reflexivity|]. run_monad. rewrite Hc in H. simpl in H.
  fold (pipeline_body context) in H.
  destruct (upstash w (pipeline_body context)) as [|[] status [| |entries]] eqn:Hp;
    simpl in H; try discriminate.
  destruct (entries !! 0%nat) as [[count| | |]|] eqn:H0; simpl in H;
    try discriminate.
  exists status, entries, count. split; [reflexivity | exact H0].
Qed.

(** The minutes the limiter returns: the full window, or the ceiling of a
    non-negative time-to-live that the store reported. *)
Lemma enforce_returned_minutes w context s rate s' :
  enforceRateLimit w context s = (Returned rate, s') ->
  exists m,
    remainingMinutes rate = Fin m /\ 0 <= m
    /\ (m = Z.max 0 (ceil_div (ttlSeconds context) 60)
        \/ exists status entries t,
             upstash w (pipeline_body context)
             = Response true status (JsonArray entries)
             /\ entries !! 1%nat = Some (Fin t) /\ 0 <= t /\ m = ceil_div t 60).
Proof.
  intros H.
  destruct (enforce_returned_inv _ _ _ _ _ H) as (Hc & status & entries & count & Hp & H0).
  rewrite (enforce_answered _ _ _ _ _ _ Hc Hp H0) in H. cbv zeta in H.
  destruct ((count =? 1) || num_lt (entries !! 1%nat) 0) eqn:Hcond.
  - destruct (upstash w (expire_body context)) as [|[] st [| |[|e es]]];
      try discriminate. injection H as <- _. cbn [remainingMinutes].
    eexists. repeat split; [lia | now left].
  - injection H as <- _. cbn [remainingMinutes].
    apply orb_false_iff in Hcond as [_ Hlt].
    destruct (entries !! 1%nat) as [[t| | |]|] eqn:H1;
      try (eexists; repeat split; [lia | now left]).
    simpl in Hlt. apply Z.ltb_ge in Hlt.
    eexists. repeat split; [now apply ceil_div_nonneg|].
    right. exists status, entries, t. auto.
Qed.

Lemma enforce_calls_store w context s :
  Forall is_store_call (calls s) ->
  Forall is_store_call (calls (snd (enforceRateLimit w context s))).
Proof.
  intros Hs. destruct (redis_configured w) eqn:Hc.
  - destruct (enforce_effects w context s Hc) as (r & more & -> & Hmore).
    cbn [snd calls]. apply Forall_app. split; [assumption|].
    constructor; [exact I | assumption].
  - now rewrite enforce_unconfigured.
Qed.

Lemma limiter_run_calls req w : Forall is_store_call (calls (snd (limiter_run req w))).
Proof. apply enforce_calls_store. constructor. Qed.

Lemma limiter_run_cookie req w :
  setCookie (res (snd (limiter_run req w))) = snd (issue_cookie req w).
Proof.
  unfold limiter_run. rewrite enforce_res. cbn [res].
  now destruct (snd (issue_cookie req w)).
Qed.

(** The run of the handler, by what the limiter gave. *)
Lemma run_unfold req w :
  run req w
  = match limiter_run req w with
    | (Returned rate, s2) =>
        if allowed rate then snd (generate req w s2)
        else respond 429 (JRateLimit (remainingMinutes rate)) s2
    | (Thrown, s2) => respond 500 INTERNAL_SERVER_ERROR s2
    end.
Proof.
  unfold run, handler, bind, limiter_run. rewrite gate_unfold. cbv zeta. cbn [res calls].
  destruct (enforceRateLimit w _ _) as [[rate|] s2]; [|reflexivity].
  now destruct (allowed rate).
Qed.

Lemma store_calls_no_generation l prompt :
  Forall is_store_call l -> CallGemini prompt ∈ l -> False.
Proof. rewrite Forall_forall. intros Hl Hin. exact (Hl _ Hin). Qed.

(** X6.  The generation service is called exactly when the limiter has
    returned [allowed]; the call is then the last one of the run, made once,
    with the fixed prompt followed by the category. *)
Theorem generation_iff_allowed req w :
  ((exists prompt, CallGemini prompt ∈ calls (run req w))
   <-> exists rate, fst (limiter_run req w) = Returned rate /\ allowed rate = true)
  /\ forall prompt,
       CallGemini prompt ∈ calls (run req w) ->
       prompt = PROMPT_PREFIX ++ category_of req
       /\ calls (run req w) = calls (snd (limiter_run req w)) ++ [CallGemini prompt].
Proof.
  rewrite run_unfold. pose proof (limiter_run_calls req w) as Hstore.
  destruct (limiter_run req w) as [[rate|] s2]; cbn [fst snd] in *.
  - destruct (allowed rate) eqn:Ha.
    + destruct (generate_effects req w s2) as (code & body & -> & _). cbn [snd calls].
      split.
      * split; [eauto|]. intros _. eexists. apply elem_of_app. right. left.
      * intros prompt Hin. apply elem_of_app in Hin as [Hin|Hin].
        -- destruct (store_calls_no_generation _ _ Hstore Hin).
        -- apply list_elem_of_singleton in Hin. injection Hin as ->. auto.
    + cbn [respond calls]. split.
      * split; [intros [p Hp]; destruct (store_calls_no_generation _ _ Hstore Hp)|].
        intros (r & [= <-] & Hr). congruence.
      * intros p Hp. destruct (store_calls_no_generation _ _ Hstore Hp).
  - cbn [respond calls]. split.
    + split; [intros [p Hp]; destruct (store_calls_no_generation _ _ Hstore Hp)|].
      intros (r & Hr & _). discriminate.
    + intros p Hp. destruct (store_calls_no_generation _ _ Hstore Hp).
Qed.

(** X7.  A 429 is answered only for what the limiter refused: the body
    then carries the minutes that the limiter returned, which are a
    non-negative integer (at most 60 when the store reports no time-to-live
    above 3600), the generation service has not been called, and the pending
    cookie is on the response. *)
Theorem denial_response req w :
  statusCode (res (run req w)) = 429 ->
  exists rate m,
    fst (limiter_run req w) = Returned rate
    /\ allowed rate = false
    /\ res (run req w)
       = {| statusCode := 429; setCookie := snd (issue_cookie req w);
            json := Some (JRateLimit (remainingMinutes rate)) |}
    /\ remainingMinutes rate = Fin m
    /\ 0 <= m
    /\ ((forall status entries t,
           upstash w (pipeline_body (rate_context req (fst (issue_cookie req w))))
           = Response true status (JsonArray entries) ->
           entries !! 1%nat = Some (Fin t) -> t <= 3600) ->
        m <= 60)
    /\ Forall is_store_call (calls (run req w)).
Proof.
  rewrite run_unfold. pose proof (limiter_run_calls req w) as Hstore.
  pose proof (limiter_run_cookie req w) as Hcookie.
  destruct (limiter_run req w) as [[rate|] s2] eqn:Hl; cbn [fst snd] in *;
    [|cbn [respond res statusCode]; discriminate].
  destruct (allowed rate) eqn:Ha.
  - destruct (generate_effects req w s2) as (code & body & -> & [-> | ->]);
      cbn [snd res statusCode]; discriminate.
  - intros _. unfold limiter_run in Hl.
    destruct (enforce_returned_minutes _ _ _ _ _ Hl) as (m & Hm & H0 & Hcases).
    exists rate, m. cbn [respond res calls]. rewrite Hcookie.
    repeat split; auto. intros Hbound.
    assert (Httl : ttlSeconds (rate_context req (fst (issue_cookie req w))) = 3600).
    { destruct (rate_context_cases req (fst (issue_cookie req w)))
        as [[a ->]|[[a ->]| ->]]; reflexivity. }
    destruct Hcases as [-> | (status & entries & t & Hp & H1 & Ht & ->)].
    + rewrite Httl. vm_compute. discriminate.
    + specialize (Hbound status entries t Hp H1).
      pose proof (ceil_div_spec t 60 eq_refl). lia.
Qed.

Lemma denial_response_witness :
  exists rate m,
    fst (limiter_run bare_request (world_with (store_reply (Fin 31) (Fin 1800))))
    = Returned rate
    /\ allowed rate = false
    /\ res (run bare_request (world_with (store_reply (Fin 31) (Fin 1800))))
       = {| statusCode := 429;
            setCookie := Some (createCookie sample_uuid);
            json := Some (JRateLimit (remainingMinutes rate)) |}
    /\ remainingMinutes rate = Fin m.
Proof.
  destruct (denial_response bare_request
              (world_with (store_reply (Fin 31) (Fin 1800))) eq_refl)
    as (rate & m & Hrun & Hallowed & Hres & Hm & _).
  exists rate, m. repeat split; assumption.
Defined.

(** X8.  A 200 is answered only for a request that the limiter allowed and
    for which the generation service gave a text that is not blank; the body
    is that text, trimmed. *)
Theorem success_response req w :
  statusCode (res (run req w)) = 200 ->
  exists rate text,
    fst (limiter_run req w) = Returned rate
    /\ allowed rate = true
    /\ gemini w (PROMPT_PREFIX ++ category_of req) = GeminiText (Some text)
    /\ trim text <> []
    /\ json (res (run req w)) = Some (JIdea (trim text)).
Proof.
  rewrite run_unfold.
  destruct (limiter_run req w) as [[rate|] s2]; cbn [fst];
    [|cbn [respond res statusCode]; discriminate].
  destruct (allowed rate) eqn:Ha; [|cbn [respond res statusCode]; discriminate].
  unfold generate, try_catch, bind, perform, throw, res_status_json.
  cbn [fst snd res calls].
  destruct (gemini w _) as [|[text|]] eqn:Hg;
    cbn [fst snd res statusCode json option_fmap fmap option_map];
    try discriminate.
  destruct (trim text) as [|c idea] eqn:Ht;
    cbn [fst snd res statusCode json]; [discriminate|].
  intros _. exists rate, text. rewrite Ht. repeat split; auto.
Qed.

Lemma success_response_witness :
  json (res (run bare_request (world_with (store_reply (Fin 1) (Fin (-1))))))
  = Some (JIdea (str "Take a ten-minute walk.")).
Proof.
  destruct (success_response bare_request
              (world_with (store_reply (Fin 1) (Fin (-1)))) eq_refl)
    as (rate & text & _ & _ & Hg & _ & Hjson).
  injection Hg as <-. exact Hjson.
Defined.

(** X9.  Without store configuration every request for which [parseBody]
    returns a record is answered 500 with the internal error, and the
    handler calls neither the store nor the generation service; a cookie
    that was pending is still set.  For the one body for which [parseBody]
    returns [null] (the JSON text [null] as string or [Buffer]) the handler
    throws before it has answered or called anything. *)
Theorem unconfigured_answers_500 body req w :
  redis_configured w = false ->
  match parseBody body with
  | PFields category deviceId =>
      serve body req w start
      = (Returned tt,
         {| res := {| statusCode := 500;
                      setCookie := snd (issue_cookie (with_body req category deviceId) w);
                      json := Some (JError (str "Internal Server Error.")) |};
            calls := [] |})
  | PNull => serve body req w start = (Thrown, start)
  end.
Proof.
  intros Hc. unfold serve. destruct (parseBody body) as [|category deviceId];
    [reflexivity|].
  unfold handler, bind, start. rewrite gate_unfold. cbv zeta. cbn [res calls].
  rewrite enforce_unconfigured by assumption. unfold respond. cbn [res calls].
  now destruct (snd (issue_cookie (with_body req category deviceId) w)).
Qed.

Lemma unconfigured_answers_500_witness :
  snd (serve (BodyString (Returned (PFields VUndefined (VString (str "not-a-uuid")))))
         bare_request unconfigured_world start)
  = {| res := {| statusCode := 500;
                 setCookie := Some (createCookie (str "1700000000000-8f3a91c2"));
                 json := Some (JError (str "Internal Server Error.")) |};
       calls := [] |}
  /\ serve (BodyString (Returned PNull)) bare_request unconfigured_world start
     = (Thrown, start).
Proof.
  split.
  - exact (f_equal snd
             (unconfigured_answers_500
                (BodyString (Returned (PFields VUndefined (VString (str "not-a-uuid")))))
                bare_request unconfigured_world eq_refl)).
  - exact (unconfigured_answers_500 (BodyString (Returned PNull))
             bare_request unconfigured_world eq_refl).
Defined.

Lemma runUpstash_failure w commands s :
  redis_configured w = true ->
  command_failure (upstash w [commands]) ->
  runUpstash w commands s
  = (Thrown, {| res := res s; calls := calls s ++ [CallUpstash [commands]] |}).
Proof.
  intros Hc Hf. run_monad. rewrite Hc. simpl.
  inversion Hf as [Hr|st d Hr|ok st Hr|ok st Hr|ok st Hr]; simpl;
    try reflexivity; now destruct ok.
Qed.

(** X10.  When the store has counted the request (a first increment, or a
    key without expiry) and the [EXPIRE] that follows fails, the request is
    answered 500: the window is not left open silently, the generation
    service is not called, and the increment stays. *)
Theorem expire_failure_fails_closed req w status entries count :
  let context := rate_context req (fst (issue_cookie req w)) in
  redis_configured w = true ->
  upstash w (pipeline_body context) = Response true status (JsonArray entries) ->
  entries !! 0%nat = Some (Fin count) ->
  (count =? 1) || num_lt (entries !! 1%nat) 0 = true ->
  command_failure (upstash w (expire_body context)) ->
  run req w
  = {| res := {| statusCode := 500; setCookie := snd (issue_cookie req w);
                 json := Some (JError (str "Internal Server Error.")) |};
       calls := [CallUpstash (pipeline_body context);
                 CallUpstash (expire_body context)] |}.
Proof.
  intros context Hc Hp H0 Hcond Hf. rewrite run_unfold. unfold limiter_run.
  fold context. rewrite (enforce_answered _ _ _ _ _ _ Hc Hp H0). cbv zeta.
  rewrite Hcond. cbn [res calls app].
  assert (Ht : match upstash w (expire_body context) with
               | Response true _ (JsonArray (_ :: _)) => false
               | _ => true
               end = true)
    by (inversion Hf as [Hr|st d Hr|ok st Hr|ok st Hr|ok st Hr];
        try reflexivity; now destruct ok).
  destruct (upstash w (expire_body context)) as [|[] st [| |[|e es]]];
    try discriminate Ht; unfold respond; cbn [res calls];
    now destruct (snd (issue_cookie req w)).
Qed.

Lemma expire_failure_fails_closed_witness :
  statusCode (res (run bare_request expire_fails_world)) = 500
  /\ length (calls (run bare_request expire_fails_world)) = 2%nat.
Proof.
  rewrite (expire_failure_fails_closed bare_request expire_fails_world 200
             [Fin 1; Fin (-1)] 1 eq_refl eq_refl eq_refl eq_refl
             (command_not_ok 500 JsonRejects)).
  split; reflexivity.
Defined.


End ServerMore.


(** ** More on the usage guard *)

Module GuardMore.
Import Guard GuardSpec GuardFacts.

Lemma merge_sort_sorted (l : list Z) :
  StronglySorted Z.le l -> merge_sort Z.le l = l.
Proof.
  intros Hl. apply (StronglySorted_unique Z.le); auto.
  - apply StronglySorted_merge_sort; apply _.
  - apply merge_sort_Permutation.
Qed.

Lemma omap_in_window_all cutoff (l : list Z) :
  Forall (fun t => cutoff <= t) l -> omap (in_window cutoff) (map Fin l) = l.
Proof.
  induction 1 as [|t l Ht _ IH]; [reflexivity|].
  cbn [map omap list_omap in_window]. apply Z.leb_le in Ht. rewrite Ht.
  f_equal. exact IH.
Qed.

(** Reading back a sorted list of stamps of the window gives that list. *)
Lemma loadTimestamps_written now (l : list Z) :
  StronglySorted Z.le l ->
  Forall (fun t => now - 3600000 <= t) l ->
  loadTimestamps (StoredArray (map Fin l)) now = l.
Proof.
  intros Hs Hw. cbn [loadTimestamps]. change WINDOW_MS with 3600000.
  rewrite omap_in_window_all by assumption. now apply merge_sort_sorted.
Qed.


Lemma loadTimestamps_sorted st now : StronglySorted Z.le (loadTimestamps st now).
Proof.
  destruct st; try constructor. cbn [loadTimestamps].
  apply StronglySorted_merge_sort; apply _.
Qed.



Lemma recordGenerateIdea_readable st now :
  readable st ->
  recordGenerateIdea false st now
  = Returned (StoredArray (map Fin (merge_sort Z.le (loadTimestamps st now ++ [now])))).
Proof. intros [H1 H2]. destruct st; try reflexivity; congruence. Qed.



(** Recording at a time not before the stamps in storage, all of them of the
    hour before it, appends the time. *)
Lemma recordGenerateIdea_append (stamps : list Z) t :
  StronglySorted Z.le (stamps ++ [t]) ->
  Forall (fun x => t - 3600000 <= x) stamps ->
  recordGenerateIdea false (StoredArray (map Fin stamps)) t
  = Returned (StoredArray (map Fin (stamps ++ [t]))).
Proof.
  intros Hs Hw. rewrite recordGenerateIdea_readable by (split; discriminate).
  rewrite loadTimestamps_written; [|now apply StronglySorted_app_1_l in Hs|assumption].
  now rewrite merge_sort_sorted.
Qed.

Lemma record_all_append (stamps times : list Z) now :
  StronglySorted Z.le (stamps ++ times) ->
  Forall (fun t => now - 3600000 <= t <= now) (stamps ++ times) ->
  record_all (StoredArray (map Fin stamps)) times
  = Returned (StoredArray (map Fin (stamps ++ times))).
Proof.
  revert stamps. induction times as [|t times IH]; intros stamps Hs Hw.
  - now rewrite app_nil_r.
  - cbn [record_all]. replace (stamps ++ t :: times) with ((stamps ++ [t]) ++ times) in *
      by now rewrite <- app_assoc.
    rewrite recordGenerateIdea_append.
    + now apply IH.
    + now apply StronglySorted_app_1_l in Hs.
    + apply Forall_app in Hw as [Hw _]. apply Forall_app in Hw as [Hst Ht].
      apply Forall_cons in Ht as [Ht _]. eapply Forall_impl; [exact Hst|].
      simpl. intros x Hx. lia.
Qed.

Lemma record_all_fresh st (times : list Z) now :
  readable st -> stored_values st = [] ->
  StronglySorted Z.le times ->
  Forall (fun t => now - 3600000 <= t <= now) times ->
  times <> [] ->
  record_all st times = Returned (StoredArray (map Fin times)).
Proof.
  intros [H1 H2] Hv Hs Hw Hne. destruct times as [|t times]; [congruence|].
  cbn [record_all].
  assert (Hfirst : recordGenerateIdea false st t = Returned (StoredArray (map Fin [t]))).
  { destruct st as [| | | | |values]; try reflexivity; try congruence.
    simpl in Hv. now subst values. }
  rewrite Hfirst. now apply (record_all_append [t] times now).
Qed.

(** X13.  A burst on a storage without stamps: after one
    [recordGenerateIdea] at each of the given times, ascending and within
    the hour before [now], the guard allows the next generation exactly when
    fewer than 20 were recorded, and when it refuses it reports the minutes
    until the first of them is an hour old. *)
Theorem guard_after_burst st (times : list Z) now :
  readable st -> stored_values st = [] ->
  StronglySorted Z.le times ->
  Forall (fun t => now - 3600000 <= t <= now) times ->
  exists st',
    record_all st times = Returned st'
    /\ canGenerateIdea st' now
       = if (length times <? 20)%nat then (true, 0)
         else (false, ceil_div (3600000 - (now - hd 0 times)) 60000).
Proof.
  intros Hr Hv Hs Hw. destruct times as [|first times].
  - exists st. split; [reflexivity|]. unfold canGenerateIdea.
    assert (Hl : loadTimestamps st now = []).
    { destruct st as [| | | | |values]; try reflexivity. simpl in Hv. now subst. }
    now rewrite Hl.
  - eexists. split; [now apply (record_all_fresh st _ now)|].
    unfold canGenerateIdea, minutesUntilReset.
    rewrite loadTimestamps_written;
      [|assumption | eapply Forall_impl; [exact Hw|]; simpl; intros; lia].
    change LIMIT with 20%nat.
    destruct (length (first :: times) <? 20)%nat; [reflexivity|].
    cbn [hd]. change WINDOW_MS with 3600000. change (60 * 1000) with 60000.
    apply Forall_cons in Hw as [Hf _].
    pose proof (ceil_div_spec (3600000 - (now - first)) 60000 eq_refl).
    destruct (Z.leb_spec (3600000 - (now - first)) 0); [|reflexivity].
    f_equal. lia.
Qed.

Lemma guard_after_burst_witness :
  exists st',
    record_all NoItem (map (fun i => 1700000000000 + 60000 * Z.of_nat i) (seq 0 20))
    = Returned st'
    /\ canGenerateIdea st' (1700000000000 + 1800001) = (false, 30).
Proof.
  destruct (guard_after_burst NoItem
              (map (fun i => 1700000000000 + 60000 * Z.of_nat i) (seq 0 20))
              (1700000000000 + 1800001))
    as (st' & Hrun & Hcheck).
  - split; discriminate.
  - reflexivity.
  - apply (bool_decide_unpack _). vm_compute. exact I.
  - apply (bool_decide_unpack _). vm_compute. exact I.
  - exists st'. split; [exact Hrun | exact Hcheck].
Defined.

(** X14.  The minutes that the guard reports lie between 0 and 60, as long
    as no stored stamp is later than [now]. *)
Theorem remaining_at_most_an_hour st now :
  Forall (fun v => forall t, v = Fin t -> t <= now) (stored_values st) ->
  0 <= snd (canGenerateIdea st now) <= 60.
Proof.
  intros Hpast. unfold canGenerateIdea, minutesUntilReset. cbn [snd].
  destruct (length (loadTimestamps st now) <? LIMIT)%nat eqn:Hlen; [lia|].
  destruct (loadTimestamps st now) as [|oldest rest] eqn:Hl; cbn [hd].
  - discriminate Hlen.
  - destruct (hd_loadTimestamps st now oldest rest Hl) as (Hin & Hw & _).
    rewrite Forall_forall in Hpast. specialize (Hpast _ Hin oldest eq_refl).
    apply Z.leb_le in Hw. change WINDOW_MS with 3600000.
    change (60 * 1000) with 60000.
    pose proof (ceil_div_spec (3600000 - (now - oldest)) 60000 eq_refl).
    destruct (Z.leb_spec (3600000 - (now - oldest)) 0); lia.
Qed.

Lemma remaining_at_most_an_hour_witness :
  0 <= snd (canGenerateIdea busy_hour (1700000000000 + 1800001)) <= 60.
Proof.
  apply remaining_at_most_an_hour. apply Forall_forall. intros v Hv t ->.
  apply list_elem_of_In, in_map_iff in Hv as (i & [= <-] & Hi).
  apply in_rev, in_seq in Hi. lia.
Defined.

(** X15.  Without a local storage the guard is a no-op: nothing is
    recorded, and the guard allows every generation. *)
Theorem guard_without_storage (times : list Z) now :
  record_all NoStorage times = Returned NoStorage
  /\ canGenerateIdea NoStorage now = (true, 0).
Proof. split; [|reflexivity]. induction times as [|t times IH]; [reflexivity | exact IH]. Qed.

End GuardMore.

(** ** More on the device identifier *)

Module DeviceIdMore.
Import DeviceId DeviceIdSpec DeviceIdFacts.

(** A non-empty identifier comes out of a storage that can be read and that
    holds it afterwards. *)
Lemma getDeviceId_nonempty_inv w id w' :
  getDeviceId w = (id, w') -> id <> [] ->
  exists st', window w' = Some (Some st')
              /\ getItem_throws st' = false
              /\ items st' !! STORAGE_KEY = Some id.
Proof.
  unfold getDeviceId, getItem, setItem.
  destruct (window w) as [[st|]|] eqn:Hw; try (intros [= <- <-]; congruence).
  destruct (getItem_throws st) eqn:Hg; [intros [= <- <-]; congruence|].
  destruct (items st !! STORAGE_KEY) as [e|] eqn:He.
  - destruct (truthy e && isValidUuid e).
    + intros [= <- <-] _. exists st. auto.
    + destruct (fresh_id w) as [fresh|]; [|intros [= <- <-]; congruence].
      destruct (setItem_throws st); intros [= <- <-] Hne; [congruence|].
      eexists. cbn [with_storage window items getItem_throws].
      repeat split; auto. apply lookup_insert_eq.
  - cbn [default]. destruct (fresh_id w) as [fresh|]; [|intros [= <- <-]; congruence].
    destruct (setItem_throws st); intros [= <- <-] Hne; [congruence|].
    eexists. cbn [with_storage window items getItem_throws].
    repeat split; auto. apply lookup_insert_eq.
Qed.

(** X16.  A UUID-shaped identifier is stable: once [getDeviceId] has
    returned one, every later call on that storage returns the same
    identifier and writes nothing, whatever the clock and the random source
    are by then. *)
Theorem getDeviceId_stable w id w' w2 :
  getDeviceId w = (id, w') ->
  id <> [] ->
  isValidUuid id = true ->
  window w2 = window w' ->
  getDeviceId w2 = (id, w2).
Proof.
  intros Hd Hne Hv Hw2.
  destruct (getDeviceId_nonempty_inv w id w' Hd Hne) as (st' & Hw' & Hg & Hi).
  unfold getDeviceId, getItem. rewrite Hw2, Hw', Hg, Hi, Hv.
  destruct id; [congruence | reflexivity].
Qed.

Lemma getDeviceId_stable_witness :
  getDeviceId (later (snd (getDeviceId modern_browser)) 1800000000000 (str "0.zzzz"))
  = (str "123e4567-e89b-42d3-a456-426614174000",
     later (snd (getDeviceId modern_browser)) 1800000000000 (str "0.zzzz")).
Proof.
  apply (getDeviceId_stable modern_browser _ (snd (getDeviceId modern_browser)));
    [reflexivity | discriminate | reflexivity | reflexivity].
Defined.

(** X17.  Without [crypto.randomUUID] the identifier is not stable: the
    identifier that a call stored is not reused by the next call, which
    makes a new one from its own clock and random digits and stores that. *)
Theorem fallback_id_regenerated w1 st1 w2 :
  window w1 = Some (Some st1) ->
  getItem_throws st1 = false ->
  setItem_throws st1 = false ->
  randomUUID_of w1 = None ->
  stored_id st1 = None ->
  window w2 = window (snd (getDeviceId w1)) ->
  randomUUID_of w2 = None ->
  let id2 := str "device-" ++ of_Z (Date_now w2) ++ str "-"
             ++ slice 2 10 (Math_random_36 w2) in
  fst (getDeviceId w2) = id2 /\ persisted (snd (getDeviceId w2)) = Some id2.
Proof.
  intros Hw Hg Hs Hr Hst Hw2 Hr2.
  pose proof (getDeviceId_regenerated w1 st1 Hw Hg Hs Hst) as H1.
  rewrite (fresh_id_fallback w1 Hr) in H1. destruct H1 as [Hid1 Hp1].
  unfold getDeviceId, getItem, setItem in Hw2. rewrite Hw, Hg in Hw2.
  assert (Hinvalid : match items st1 !! STORAGE_KEY with
                     | Some e => truthy e && isValidUuid e
                     | None => false
                     end = false).
  { unfold stored_id in Hst. destruct (items st1 !! STORAGE_KEY) as [e|]; [|reflexivity].
    now destruct (truthy e && isValidUuid e). }
  rewrite Hinvalid, (fresh_id_fallback w1 Hr), Hs in Hw2.
  cbn [snd with_storage window] in Hw2.
  match type of Hw2 with _ = Some (Some ?st) =>
    pose proof (getDeviceId_regenerated w2 st Hw2 eq_refl eq_refl) as H2 end.
  rewrite (fresh_id_fallback w2 Hr2) in H2. apply H2.
  unfold stored_id. cbn [items]. rewrite lookup_insert_eq.
  rewrite fallback_not_uuid. now rewrite andb_false_r.
Qed.

Lemma fallback_id_regenerated_witness :
  fst (getDeviceId (later (snd (getDeviceId old_browser)) 1700000060000
                      (str "0.9qwertyuiop")))
  = str "device-1700000060000-9qwertyu".
Proof.
  exact (proj1 (fallback_id_regenerated old_browser empty_storage
                  (later (snd (getDeviceId old_browser)) 1700000060000
                     (str "0.9qwertyuiop"))
                  eq_refl eq_refl eq_refl eq_refl eq_refl eq_refl eq_refl)).
Defined.

End DeviceIdMore.

(** ** The identifier on its way from the client to the server *)

Module ClientServer.
Import DeviceId DeviceIdSpec DeviceIdFacts.

Lemma byte_hex_pair b :
  exists h1 h2,
    padStart2 (toString16 (Byte.to_N b)) = [h1; h2]
    /\ lower h1 = h1 /\ lower h2 = h2
    /\ unhex_pair h1 h2 = Some b.
Proof. destruct b; eexists _, _; repeat split. Qed.

Lemma hex_string_lower bytes : toLowerCase (hex_string bytes) = hex_string bytes.
Proof.
  induction bytes as [|b bytes IH]; [reflexivity|].
  rewrite hex_string_cons.
  destruct (byte_hex_pair b) as (h1 & h2 & -> & H1 & H2 & _).
  unfold toLowerCase in *. cbn [app map]. now rewrite H1, H2, IH.
Qed.

(** X18.  The hex form of a digest keeps the digest: it has two digits per
    byte, and different digests give different identifiers. *)
Theorem hex_string_injective bytes1 bytes2 :
  length (hex_string bytes1) = (2 * length bytes1)%nat
  /\ (hex_string bytes1 = hex_string bytes2 -> bytes1 = bytes2).
Proof.
  split.
  - induction bytes1 as [|b bytes IH]; [reflexivity|].
    rewrite hex_string_cons.
    destruct (byte_hex_pair b) as (h1 & h2 & -> & _). cbn [app length].
    rewrite IH. lia.
  - revert bytes2. induction bytes1 as [|a bytes1 IH]; intros [|b bytes2].
    + reflexivity.
    + intros H. symmetry in H. now apply hex_string_not_empty in H.
    + intros H. now apply hex_string_not_empty in H.
    + rewrite !hex_string_cons.
      destruct (byte_hex_pair a) as (h1 & h2 & -> & _ & _ & Ha).
      destruct (byte_hex_pair b) as (k1 & k2 & -> & _ & _ & Hb).
      intros [= -> -> Htail]. rewrite Ha in Hb. injection Hb as ->.
      f_equal. now apply IH.
Qed.

Lemma hex_string_accepted bytes :
  length bytes = 32%nat ->
  Server.normalizeDeviceId (VString (hex_string bytes)) = Some (hex_string bytes).
Proof.
  intros Hlen.
  assert (Ht : test Server.HEX_64_REGEX (hex_string bytes) = true).
  { unfold test. change (expand Server.HEX_64_REGEX) with (repeat Hex (2 * 32)).
    rewrite <- Hlen. apply hex_string_matches. }
  unfold Server.normalizeDeviceId.
  rewrite trim_solid by (eapply regex_test_no_whitespace; exact Ht).
  now rewrite Ht, hex_string_lower.
Qed.

(** X19.  The identifier that the client computes with a 32-byte digest is
    the one the server counts: [getUniqueDeviceId] resolves with the hex
    form of the digest, [normalizeDeviceId] accepts it unchanged, and a
    request that carries it is counted under [rl:combined:] followed by
    it. *)
Theorem digest_id_accepted w baseId w' digest bytes :
  getDeviceId w = (baseId, w') ->
  baseId <> [] ->
  digest_of w' = Some digest ->
  digest (baseId ++ str "|" ++ default [] (fingerprintPromise w')) = Returned bytes ->
  length bytes = 32%nat ->
  getUniqueDeviceId w = (Returned (hex_string bytes), w')
  /\ Server.normalizeDeviceId (VString (hex_string bytes)) = Some (hex_string bytes)
  /\ forall req cookieDeviceId,
       Server.deviceId_of req = VString (hex_string bytes) ->
       Server.rate_context req cookieDeviceId
       = ServerSpec.combined_context (hex_string bytes).
Proof.
  intros Hd Hne Hdig Hrun Hlen.
  pose proof (hex_string_accepted bytes Hlen) as Hacc.
  destruct bytes as [|b bytes]; [discriminate|].
  pose proof (hex_string_not_empty b bytes) as Hhex.
  split; [|split; [exact Hacc|]].
  - unfold getUniqueDeviceId, sha256. rewrite Hd.
    destruct baseId as [|c baseId]; [congruence|]. cbn [truthy negb].
    unfold digest_of in Hdig. destruct (crypto w') as [cr|]; [|discriminate].
    rewrite Hdig, Hrun. fold (hex_string (b :: bytes)).
    destruct (hex_string (b :: bytes)); [congruence | reflexivity].
  - intros req cookieDeviceId Hreq. unfold Server.rate_context.
    rewrite Hreq, Hacc.
    destruct (hex_string (b :: bytes)); [congruence | reflexivity].
Qed.

Lemma digest_id_accepted_witness :
  Server.normalizeDeviceId
    (VString (hex_string (repeat Byte.x5a 31 ++ [Byte.x07])))
  = Some (hex_string (repeat Byte.x5a 31 ++ [Byte.x07])).
Proof.
  exact (proj1 (proj2 (digest_id_accepted modern_browser
                         (str "123e4567-e89b-42d3-a456-426614174000")
                         (snd (getDeviceId modern_browser))
                         (fun _ => Returned (repeat Byte.x5a 31 ++ [Byte.x07]))
                         (repeat Byte.x5a 31 ++ [Byte.x07])
                         eq_refl ltac:(discriminate) eq_refl eq_refl eq_refl))).
Defined.

(** What [trim] leaves of a fallback identifier still starts with
    [device-]. *)
Lemma trim_device_prefix rest :
  trim (str "device-" ++ rest) = str "device-" ++ trimEnd rest.
Proof.
  unfold trim.
  change (str "device-" ++ rest)
    with (100 :: ([101; 118; 105; 99; 101] ++ 45 :: rest))%N.
  rewrite trimStart_head by reflexivity. unfold trimEnd.
  change (100 :: ([101; 118; 105; 99; 101] ++ 45 :: rest))%N
    with ([100; 101; 118; 105; 99; 101; 45]%N ++ rest).
  rewrite rev_app_distr.
  change (rev [100; 101; 118; 105; 99; 101; 45]%N)
    with (45 :: [101; 99; 105; 118; 101; 100])%N.
  rewrite trimStart_app_solid by reflexivity.
  rewrite rev_app_distr. reflexivity.
Qed.

Lemma device_prefix_rejected rest :
  Server.normalizeDeviceId (VString (str "device-" ++ rest)) = None.
Proof.
  unfold Server.normalizeDeviceId. rewrite trim_device_prefix. reflexivity.
Qed.

(** X20.  In a browser without [crypto], the identifier that the client
    sends is the bare fallback identifier, which the server does not accept
    as a device identifier: such a request is never counted in the combined
    tier, and goes to the cookie tier when it has a cookie. *)
Theorem fallback_id_rejected w st :
  window w = Some (Some st) ->
  getItem_throws st = false ->
  setItem_throws st = false ->
  crypto w = None ->
  stored_id st = None ->
  let id := str "device-" ++ of_Z (Date_now w) ++ str "-"
            ++ slice 2 10 (Math_random_36 w) in
  fst (getUniqueDeviceId w) = Returned id
  /\ Server.normalizeDeviceId (VString id) = None
  /\ forall req c v,
       Server.deviceId_of req = VString id ->
       Server.rate_context req (Some (c :: v)) = ServerSpec.cookie_context (c :: v).
Proof.
  intros Hw Hg Hs Hc Hst id.
  assert (Hr : randomUUID_of w = None) by (unfold randomUUID_of; now rewrite Hc).
  pose proof (getDeviceId_regenerated w st Hw Hg Hs Hst) as Hd.
  rewrite (fresh_id_fallback w Hr) in Hd. fold id in Hd. destruct Hd as [Hid _].
  pose proof (device_prefix_rejected
                (of_Z (Date_now w) ++ str "-" ++ slice 2 10 (Math_random_36 w)))
    as Hrej.
  fold id in Hrej. split; [|split; [exact Hrej|]].
  - unfold getUniqueDeviceId, sha256.
    destruct (getDeviceId w) as [baseId w'] eqn:Hrun. cbn [fst] in Hid. subst baseId.
    assert (Hc' : crypto w' = None).
    { unfold getDeviceId in Hrun. rewrite Hw in Hrun.
      destruct (getItem st STORAGE_KEY) as [existing|]; [|now injection Hrun as _ <-].
      destruct (match existing with Some e => truthy e && isValidUuid e | None => false end);
        [now injection Hrun as _ <-|].
      destruct (fresh_id w); [|now injection Hrun as _ <-].
      destruct (setItem st STORAGE_KEY a); now injection Hrun as _ <-. }
    rewrite Hc'. reflexivity.
  - intros req c v Hreq. unfold Server.rate_context. now rewrite Hreq, Hrej.
Qed.

Lemma fallback_id_rejected_witness :
  Server.normalizeDeviceId (VString (str "device-1700000000000-k3j9x0qv")) = None.
Proof.
  exact (proj1 (proj2 (fallback_id_rejected old_browser empty_storage
                         eq_refl eq_refl eq_refl eq_refl eq_refl))).
Defined.

(** X21.  Where [crypto.subtle] is missing, the client sends its bare
    UUID-shaped identifier; the client's and the server's UUID patterns
    agree, so the server accepts it and counts the request under
    [rl:combined:] followed by the identifier in lower case. *)
Theorem bare_uuid_accepted w baseId w' :
  getDeviceId w = (baseId, w') ->
  isValidUuid baseId = true ->
  digest_of w' = None ->
  getUniqueDeviceId w = (Returned baseId, w')
  /\ Server.normalizeDeviceId (VString baseId) = Some (toLowerCase baseId)
  /\ forall req cookieDeviceId,
       Server.deviceId_of req = VString baseId ->
       Server.rate_context req cookieDeviceId
       = ServerSpec.combined_context (toLowerCase baseId).
Proof.
  intros Hd Hv Hdig.
  assert (Hacc : test Server.HEX_64_REGEX baseId = true
                 \/ test Server.UUID_REGEX baseId = true) by (right; exact Hv).
  pose proof (ServerFacts.normalizeDeviceId_padded [] [] baseId
                (List.Forall_nil _) (List.Forall_nil _) Hacc) as Hn.
  rewrite app_nil_r in Hn. cbn [app] in Hn.
  pose proof (ServerFacts.accepted_not_empty baseId Hacc) as Hne.
  split; [|split; [exact Hn|]].
  - unfold getUniqueDeviceId, sha256. rewrite Hd.
    destruct baseId as [|c baseId]; [congruence|]. cbn [truthy negb].
    unfold digest_of in Hdig. destruct (crypto w') as [cr|]; [|reflexivity].
    now rewrite Hdig.
  - intros req cookieDeviceId Hreq.
    apply ServerFacts.rate_context_combined; [now rewrite Hreq | assumption].
Qed.

Lemma bare_uuid_accepted_witness :
  Server.normalizeDeviceId (VString (str "123E4567-E89B-42D3-A456-426614174000"))
  = Some (str "123e4567-e89b-42d3-a456-426614174000").
Proof.
  exact (proj1 (proj2 (bare_uuid_accepted upper_case_browser
                         (str "123E4567-E89B-42D3-A456-426614174000")
                         upper_case_browser eq_refl eq_refl eq_refl))).
Defined.

End ClientServer.

(** ** The idea history *)

Module HistoryFacts.
Import History HistorySpec.

Lemma compare_items_cases a b :
  (pinned a = pinned b /\ compare_items a b = timestamp b - timestamp a)
  \/ (pinned a = true /\ pinned b = false /\ compare_items a b = -1)
  \/ (pinned a = false /\ pinned b = true /\ compare_items a b = 1).
Proof. unfold compare_items. destruct (pinned a), (pinned b); simpl; auto. Qed.

Ltac compare_cases :=
  unfold not_after, same_rank in *;
  repeat match goal with
         | |- context [compare_items ?a ?b] =>
             let H := fresh in
             destruct (compare_items_cases a b) as [[? H]|[(? & ? & H)|(? & ? & H)]];
             rewrite H in *; clear H
         | H0 : context [compare_items ?a ?b] |- _ =>
             let H := fresh in
             destruct (compare_items_cases a b) as [[? H]|[(? & ? & H)|(? & ? & H)]];
             rewrite H in *; clear H
         end;
  try congruence; try lia.

Lemma not_after_total a b : not_after a b \/ not_after b a.
Proof. destruct (Z.le_gt_cases (compare_items a b) 0); [now left|]. right. compare_cases. Qed.

Lemma not_after_trans a b c : not_after a b -> not_after b c -> not_after a c.
Proof. intros Hab Hbc. compare_cases. Qed.

Lemma same_rank_not_after x a b :
  same_rank x a = true -> same_rank x b = true -> not_after a b.
Proof.
  unfold same_rank. rewrite !Z.eqb_eq. intros Ha Hb. compare_cases.
Qed.

Lemma insert_item_Permutation a l : insert_item a l ≡ₚ a :: l.
Proof.
  induction l as [|b l IH]; simpl; [reflexivity|].
  destruct (compare_items a b <=? 0); [reflexivity|].
  rewrite IH. apply Permutation_swap.
Qed.

Lemma sortHistory_Permutation items : sortHistory items ≡ₚ items.
Proof.
  induction items as [|a items IH]; [reflexivity|].
  cbn [sortHistory foldr]. fold (sortHistory items).
  now rewrite insert_item_Permutation, IH.
Qed.

Lemma insert_item_sorted a l :
  StronglySorted not_after l -> StronglySorted not_after (insert_item a l).
Proof.
  induction 1 as [|b l Hl IH Hb]; simpl; [repeat constructor|].
  destruct (Z.leb_spec (compare_items a b) 0) as [Hab|Hab].
  - constructor; [now constructor|]. constructor; [exact Hab|].
    eapply Forall_impl; [exact Hb|]. intros c Hc. now apply (not_after_trans a b c).
  - constructor; [exact IH|]. rewrite insert_item_Permutation.
    constructor; [|exact Hb]. destruct (not_after_total a b); [unfold not_after in *; lia | assumption].
Qed.

Lemma sortHistory_sorted items : StronglySorted not_after (sortHistory items).
Proof.
  induction items as [|a items IH]; [constructor|].
  cbn [sortHistory foldr]. now apply insert_item_sorted.
Qed.

Lemma insert_item_same_rank x a l :
  StronglySorted not_after l ->
  List.filter (same_rank x) (insert_item a l)
  = List.filter (same_rank x) (a :: l).
Proof.
  induction 1 as [|b l Hl IH Hb]; [reflexivity|]. cbn [insert_item].
  destruct (Z.leb_spec (compare_items a b) 0) as [Hab|Hab]; [reflexivity|].
  cbn [List.filter] in *. rewrite IH.
  destruct (same_rank x a) eqn:Ha, (same_rank x b) eqn:Hb'; try reflexivity.
  pose proof (same_rank_not_after x a b Ha Hb'). unfold not_after in *. lia.
Qed.

Lemma sortHistory_fixed items :
  StronglySorted not_after items -> sortHistory items = items.
Proof.
  induction 1 as [|a l Hl IH Ha]; [reflexivity|].
  cbn [sortHistory foldr]. fold (sortHistory l). rewrite IH.
  destruct l as [|b l]; [reflexivity|]. cbn [insert_item].
  apply Forall_cons in Ha as [Hab _]. apply Z.leb_le in Hab. now rewrite Hab.
Qed.

(** X22.  [sortHistory] returns its items rearranged so that pinned ideas
    come first and, among ideas of the same pin state, newer ones come first;
    ideas of the same pin state and time keep the order they had. *)
Theorem sortHistory_stable_order items :
  sortHistory items ≡ₚ items
  /\ StronglySorted not_after (sortHistory items)
  /\ (forall a b, not_after a b <->
                  (pinned a = pinned b /\ timestamp b <= timestamp a)
                  \/ (pinned a = true /\ pinned b = false))
  /\ forall x, List.filter (same_rank x) (sortHistory items)
               = List.filter (same_rank x) items.
Proof.
  split; [apply sortHistory_Permutation|].
  split; [apply sortHistory_sorted|]. split.
  - intros a b. split; [intros H | intros [[H1 H2]|[H1 H2]]]; compare_cases.
    + left. split; [assumption | lia].
    + now right.
  - intros x. induction items as [|a items IH]; [reflexivity|].
    cbn [sortHistory foldr]. fold (sortHistory items).
    rewrite insert_item_same_rank by apply sortHistory_sorted.
    cbn [List.filter]. now rewrite IH.
Qed.

Lemma loadIdeaHistory_sorted st : StronglySorted not_after (loadIdeaHistory st).
Proof. destruct st; try constructor. apply sortHistory_sorted. Qed.

Lemma loadIdeaHistory_texts st :
  Forall (fun item => truthy (text item) = true) (loadIdeaHistory st).
Proof.
  destruct st as [| | | | | |normalized]; try constructor. cbn [loadIdeaHistory].
  rewrite sortHistory_Permutation. apply List.Forall_forall.
  intros item Hin. now apply filter_In in Hin.
Qed.

Lemma filter_all {A} (f : A -> bool) l :
  Forall (fun x => f x = true) l -> List.filter f l = l.
Proof. induction 1 as [|x l Hx _ IH]; simpl; [reflexivity|]. now rewrite Hx, IH. Qed.

(** An ordered list of items with texts reads back as it was written. *)
Lemma loadIdeaHistory_written sorted :
  StronglySorted not_after sorted ->
  Forall (fun item => truthy (text item) = true) sorted ->
  loadIdeaHistory (StoredItems sorted) = sorted.
Proof.
  intros Hs Ht. cbn [loadIdeaHistory]. rewrite filter_all by assumption.
  now apply sortHistory_fixed.
Qed.

Lemma write_readable st sorted :
  readable st -> write false st sorted = Returned (StoredItems sorted).
Proof. intros [H1 H2]. destruct st; try reflexivity; congruence. Qed.

Lemma saveIdeaToHistory_unfold st text0 category0 now :
  readable st -> trim text0 <> [] ->
  saveIdeaToHistory false st text0 category0 now
  = let history := loadIdeaHistory st in
    if existsb (fun item => bool_decide (text item = trim text0)) history
    then Returned (history, st)
    else let sorted :=
           sortHistory ({| text := trim text0;
                           category := if truthy (trim category0)
                                       then trim category0 else UNCATEGORIZED;
                           timestamp := now; pinned := false |} :: history) in
         Returned (sorted, StoredItems sorted).
Proof.
  intros Hr Hne. unfold saveIdeaToHistory.
  destruct (trim text0) as [|c t] eqn:Ht; [congruence|]. cbn [truthy negb].
  cbv zeta. rewrite (write_readable st _ Hr).
  destruct Hr as [H1 _]. destruct st; try reflexivity; congruence.
Qed.

Lemma existsb_text history t :
  existsb (fun item => bool_decide (text item = t)) history = true
  <-> t ∈ map text history.
Proof.
  rewrite existsb_exists, list_elem_of_In, in_map_iff. split.
  - intros (item & Hin & Hd). apply bool_decide_eq_true in Hd. eauto.
  - intros (item & Ht & Hin). exists item. split; [assumption|].
    now apply bool_decide_eq_true.
Qed.

(** X23.  Saving an idea in a readable storage that takes the write: the
    list returned is what the storage holds afterwards, ordered; the idea,
    trimmed, is in it; no text is in it twice if none was before; and
    nothing at all is written for a blank text or a text that the history
    holds already. *)
Theorem saveIdeaToHistory_result st text0 category0 now :
  readable st ->
  exists history' st',
    saveIdeaToHistory false st text0 category0 now = Returned (history', st')
    /\ loadIdeaHistory st' = history'
    /\ StronglySorted not_after history'
    /\ (trim text0 <> [] -> trim text0 ∈ map text history')
    /\ (NoDup (map text (loadIdeaHistory st)) -> NoDup (map text history'))
    /\ (trim text0 = [] \/ trim text0 ∈ map text (loadIdeaHistory st) ->
        history' = loadIdeaHistory st /\ st' = st).
Proof.
  intros Hr. destruct (trim text0) as [|c t] eqn:Ht.
  - exists (loadIdeaHistory st), st. unfold saveIdeaToHistory. rewrite Ht.
    repeat split; auto using loadIdeaHistory_sorted. congruence.
  - rewrite saveIdeaToHistory_unfold by (auto; congruence). rewrite Ht. cbv zeta.
    destruct (existsb _ (loadIdeaHistory st)) eqn:He.
    + exists (loadIdeaHistory st), st. apply existsb_text in He.
      repeat split; auto using loadIdeaHistory_sorted.
    + eexists _, _. split; [reflexivity|].
      match goal with |- context [sortHistory (?new :: _)] => set (item := new) end.
      pose proof (sortHistory_Permutation (item :: loadIdeaHistory st)) as Hp.
      pose proof (sortHistory_sorted (item :: loadIdeaHistory st)) as Hs.
      assert (Hnot : c :: t ∉ map text (loadIdeaHistory st)).
      { intros Hin. apply existsb_text in Hin. congruence. }
      repeat split.
      * apply loadIdeaHistory_written; [assumption|]. rewrite Hp.
        constructor; [reflexivity | apply loadIdeaHistory_texts].
      * assumption.
      * intros _. rewrite Hp. left.
      * intros Hnd. rewrite Hp. cbn [map]. now constructor.
      * destruct H as [H|H]; [discriminate | contradiction].
      * destruct H as [H|H]; [discriminate | contradiction].
Qed.

Lemma saveIdeaToHistory_result_witness :
  exists history' st',
    saveIdeaToHistory false sample_history (str "  Read a poem ") (str " ")
      1700000500000 = Returned (history', st')
    /\ loadIdeaHistory st' = history'.
Proof.
  destruct (saveIdeaToHistory_result sample_history (str "  Read a poem ")
              (str " ") 1700000500000)
    as (history' & st' & Hrun & Hload & _).
  - split; discriminate.
  - exists history', st'. split; [exact Hrun | exact Hload].
Defined.

Lemma toggled_twice text0 item : toggled text0 (toggled text0 item) = item.
Proof.
  unfold toggled. destruct (bool_decide (text item = text0)) eqn:Hd; cbn [text];
    rewrite Hd; [|reflexivity].
  destruct item as [tx ca ts pi]. cbn. now rewrite negb_involutive.
Qed.

Lemma togglePin_unfold st text0 :
  readable st ->
  togglePin false st text0
  = let sorted := sortHistory (map (toggled text0) (loadIdeaHistory st)) in
    Returned (sorted, StoredItems sorted).
Proof.
  intros Hr. unfold togglePin. cbv zeta. fold (toggled text0).
  rewrite (write_readable st _ Hr).
  destruct Hr as [H1 _]. destruct st; try reflexivity; congruence.
Qed.

(** X24.  Toggling the pin of a text in a readable storage that takes the
    write flips the pin of the ideas with that text and of no other, keeps
    every idea, returns them ordered, and stores what it returns; toggling
    again gives back the ideas as they were. *)
Theorem togglePin_result st text0 :
  readable st ->
  exists history' st',
    togglePin false st text0 = Returned (history', st')
    /\ history' ≡ₚ map (toggled text0) (loadIdeaHistory st)
    /\ StronglySorted not_after history'
    /\ loadIdeaHistory st' = history'
    /\ exists again st'',
         togglePin false st' text0 = Returned (again, st'')
         /\ again ≡ₚ loadIdeaHistory st.
Proof.
  intros Hr. rewrite togglePin_unfold by assumption. cbv zeta.
  set (sorted := sortHistory (map (toggled text0) (loadIdeaHistory st))).
  assert (Hp : sorted ≡ₚ map (toggled text0) (loadIdeaHistory st))
    by apply sortHistory_Permutation.
  assert (Hs : StronglySorted not_after sorted) by apply sortHistory_sorted.
  assert (Hload : loadIdeaHistory (StoredItems sorted) = sorted).
  { apply loadIdeaHistory_written; [assumption|]. rewrite Hp.
    apply List.Forall_forall. intros item Hin. apply in_map_iff in Hin as (i & <- & Hi).
    pose proof (loadIdeaHistory_texts st) as Ht. rewrite List.Forall_forall in Ht.
    specialize (Ht i Hi). unfold toggled. now destruct (bool_decide _). }
  exists sorted, (StoredItems sorted). repeat split; auto.
  rewrite togglePin_unfold by (split; discriminate). cbv zeta. rewrite Hload.
  eexists _, _. split; [reflexivity|].
  rewrite sortHistory_Permutation, Hp, map_map.
  rewrite (map_ext _ id) by apply toggled_twice. now rewrite map_id.
Qed.

Lemma togglePin_result_witness :
  exists history' st',
    togglePin false sample_history (str "Bake bread") = Returned (history', st')
    /\ loadIdeaHistory st' = history'.
Proof.
  destruct (togglePin_result sample_history (str "Bake bread"))
    as (history' & st' & Hrun & _ & _ & Hload & _).
  - split; discriminate.
  - exists history', st'. split; [exact Hrun | exact Hload].
Defined.

End HistoryFacts.
